(** * ipfs-cluster peer monitor: metric store, metrics checker, pubsub monitor

    A shallow embedding of [monitor/util/metrics_checker.go] and
    [monitor/pubsubmon/pubsubmon.go].

    Conventions of the embedding:
    - a Go [error] value is [option error], with [None] for [nil];
    - [peer.ID] is a Go string type, so peers are [string]s;
    - a Go map is a [gmap]; ranging over it visits [map_to_list] order, and
      no statement below depends on which order that is;
    - calls into collaborators outside the two packages (logger, context,
      wait group, pubsub transport, rpc client, ticker, clock) are either
      recorded in a trace of [effect]s or have their answer passed in as an
      argument of the operation that makes the call. *)

From stdpp Require Import gmap strings list fin_maps.
From Stdlib Require Import ZArith.

Open Scope Z_scope.
Open Scope nat_scope.

(** Errors that travel through the two packages.  [ErrAlertChannelFull] is
    the package-level value of [metrics_checker.go]; every other error is
    produced by a collaborator and is opaque here. *)
Inductive error :=
| ErrAlertChannelFull
| ExternalError (msg : string).

#[global] Instance error_eq_dec : EqDecision error.
Proof. solve_decision. Defined.

Abbreviation bytes := (list Byte.byte).

#[global] Instance byte_eq_dec : EqDecision Byte.byte := Byte.byte_eq_dec.

(* ===================================================================== *)
(** ** Package [api]: metrics and alerts *)
(* ===================================================================== *)
Module api.

(** The fields the two packages read: [Name], [Peer], [Value], [Valid]
    and [Expire] (printed with [%d], a UnixNano timestamp). *)
Record Metric := {
  Name : string;
  Peer : string;
  Value : string;
  Expire : Z;
  Valid : bool;
}.

(** [api.Alert{Peer, MetricName}].  The [Peer] field is spelled [AlertPeer]
    because record projections share one name space with [Metric]'s. *)
Record Alert := {
  AlertPeer : string;
  MetricName : string;
}.

#[global] Instance Metric_eq_dec : EqDecision Metric.
Proof. solve_decision. Defined.

#[global] Instance Alert_eq_dec : EqDecision Alert.
Proof. solve_decision. Defined.

(** Modelled from the spec: [Metric.Expired] is declared in package [api],
    which is not among the sources.  "[Expired()] is true when the current
    time is at or past this value" (the [ExpiresAt] timestamp).  The clock
    reading is the argument [now]. *)
Definition Expired (now : Z) (m : Metric) : bool := (Expire m <=? now)%Z.

(** Modelled from the spec: [Metric.Discard] is declared in package [api],
    which is not among the sources.  "if [metric.Discard()] (invalid:
    missing kind or peer) is true". *)
Definition Discard (m : Metric) : bool :=
  bool_decide (Name m = EmptyString) || bool_decide (Peer m = EmptyString).

End api.
Export api.

(* ===================================================================== *)
(** ** Package [util]: metric store and metrics checker *)
(* ===================================================================== *)
Module util.

(** *** The metric store ([MetricStore], absent from the sources) *)

(** Modelled from the spec: the type [MetricStore] is declared in a file of
    package [util] that is not among the sources.  "A mapping from peer to
    (mapping from metric kind to bounded ordered history of Metric,
    most-recent-last)". *)
Abbreviation MetricStore := (gmap string (gmap string (list Metric))).

(** Modelled from the spec: [NewMetricStore] is not among the sources; the
    store starts with no history. *)
Definition NewMetricStore : MetricStore := ∅.

Section store.

(** The per-key history window size, a constant of the absent store file. *)
Variable WindowCap : nat.

(** Modelled from the spec: the window insertion of the absent store.
    "History length per (peer, kind) is capped at a fixed window size;
    insertion beyond the cap evicts the oldest entry (FIFO)". *)
Definition window_add (window : list Metric) (m : Metric) : list Metric :=
  let grown := window ++ [m] in
  drop (length grown - WindowCap) grown.

(** Modelled from the spec: [MetricStore.Add] is not among the sources.
    "inserts [metric] into the history for [(metric.Peer, metric.Kind)],
    evicting the oldest entry if the per-key window is full ... the store
    does not re-validate". *)
Definition Add (mtrs : MetricStore) (m : Metric) : MetricStore :=
  let byKind := default ∅ (mtrs !! Peer m) in
  let window := default [] (byKind !! Name m) in
  <[Peer m := <[Name m := window_add window m]> byKind]> mtrs.

End store.

(** The most recent entry of the history kept for [(p, kind)], if any. *)
Definition latest (mtrs : MetricStore) (p kind : string) : option Metric :=
  byKind ← mtrs !! p; window ← byKind !! kind; last window.

(** Modelled from the spec: [MetricStore.PeerMetrics] is not among the
    sources.  "returns the most recent metric of each kind reported by
    [peer], regardless of expiry". *)
Definition PeerMetrics (mtrs : MetricStore) (p : string) : list Metric :=
  match mtrs !! p with
  | None => []
  | Some byKind => omap (λ kw : string * list Metric, last kw.2) (map_to_list byKind)
  end.

(** Modelled from the spec: [MetricStore.Latest] is not among the sources.
    "returns, for every peer that has reported [kind] at least once, the
    most recently added metric of that kind provided it has not expired". *)
Definition Latest (now : Z) (mtrs : MetricStore) (kind : string) : list Metric :=
  omap (λ pk : string * gmap string (list Metric),
          m ← (window ← pk.2 !! kind; last window);
          if Expired now m then None else Some m)
       (map_to_list mtrs).

(** Modelled from the spec: [PeersetFilter] is not among the sources.
    "filters the result to only peers present in the current peer set". *)
Definition PeersetFilter (metrics : list Metric) (peerset : list string) : list Metric :=
  let peerMap : gset string := list_to_set peerset in
  filter (λ m, Peer m ∈ peerMap) metrics.

(** A metric is held in the store when it sits in some history. *)
Definition stored (mtrs : MetricStore) (m : Metric) : Prop :=
  ∃ p byKind kind window,
    mtrs !! p = Some byKind ∧ byKind !! kind = Some window ∧ m ∈ window.

(** Every history is filed under the peer and name of its entries. *)
Definition store_wf (mtrs : MetricStore) : Prop :=
  ∀ p byKind kind window m,
    mtrs !! p = Some byKind → byKind !! kind = Some window → m ∈ window →
    Peer m = p ∧ Name m = kind.

(** *** The metrics checker ([metrics_checker.go]) *)

(** [var AlertChannelCap = 256] *)
Definition AlertChannelCap : nat := 256.

(** A buffered Go channel of alerts: the queued values, oldest first, and
    the capacity given to [make].  The channel is handed out receive-only
    by [Alerts] and nothing in the package closes it, so it has no closed
    state. *)
Record AlertChan := {
  buf : list Alert;
  cap : nat;
}.

Definition make_chan (n : nat) : AlertChan := {| buf := []; cap := n |}.

(** [select { case ch <- v: ... default: ... }] with no receiver waiting:
    the send proceeds iff the buffer has room. *)
Definition try_send (ch : AlertChan) (v : Alert) : option AlertChan :=
  if decide (length (buf ch) < cap ch)
  then Some {| buf := buf ch ++ [v]; cap := cap ch |}
  else None.

(** A consumer's [<-ch] on the channel returned by [Alerts]. *)
Definition try_recv (ch : AlertChan) : option (Alert * AlertChan) :=
  match buf ch with
  | [] => None
  | a :: rest => Some (a, {| buf := rest; cap := cap ch |})
  end.

(** [type MetricsChecker struct { alertCh; metrics }].  [metrics] is a
    pointer in the source; the monitor below keeps this single copy, so the
    store the checker reads is the store the monitor writes. *)
Record MetricsChecker := {
  alertCh : AlertChan;
  metrics : MetricStore;
}.

Definition NewMetricsChecker (mtrs : MetricStore) : MetricsChecker :=
  {| alertCh := make_chan AlertChannelCap; metrics := mtrs |}.

Definition alert (mc : MetricsChecker) (pid metricName : string)
  : MetricsChecker * option error :=
  let alrt := {| AlertPeer := pid; MetricName := metricName |} in
  match try_send (alertCh mc) alrt with
  | Some ch => ({| alertCh := ch; metrics := metrics mc |}, None)
  | None => (mc, Some ErrAlertChannelFull)
  end.

(** The inner [for _, metric := range mc.metrics.PeerMetrics(peer)] of
    [CheckMetrics]; [Some err] is the early [return err]. *)
Fixpoint check_peer (now : Z) (mc : MetricsChecker) (ms : list Metric)
  : MetricsChecker * option error :=
  match ms with
  | [] => (mc, None)
  | metric :: rest =>
      if Valid metric && Expired now metric then
        match alert mc (Peer metric) (Name metric) with
        | (mc', Some err) => (mc', Some err)
        | (mc', None) => check_peer now mc' rest
        end
      else check_peer now mc rest
  end.

(** [CheckMetrics].  [now] is the clock reading the [Expired] calls of one
    sweep see; the sweep is taken to see one reading, and no consumer takes
    alerts off the queue while it runs. *)
Fixpoint CheckMetrics (now : Z) (mc : MetricsChecker) (peers : list string)
  : MetricsChecker * option error :=
  match peers with
  | [] => (mc, None)
  | peer :: rest =>
      match check_peer now mc (PeerMetrics (metrics mc) peer) with
      | (mc', Some err) => (mc', Some err)
      | (mc', None) => CheckMetrics now mc' rest
      end
  end.

Definition Alerts (mc : MetricsChecker) : AlertChan := alertCh mc.

(** *** The sweep with a record of its calls of [alert] *)

Section sweep_with.

(** The two loops of [CheckMetrics] over any state [S] that holds the
    store, with any operation [send] in the place of [mc.alert]: the same
    tests and the same early returns. *)
Context {S : Type}.
Variable store : S → MetricStore.
Variable send : S → string → string → S * option error.

Fixpoint check_peer_with (now : Z) (st : S) (ms : list Metric)
  : S * option error :=
  match ms with
  | [] => (st, None)
  | metric :: rest =>
      if Valid metric && Expired now metric then
        match send st (Peer metric) (Name metric) with
        | (st', Some err) => (st', Some err)
        | (st', None) => check_peer_with now st' rest
        end
      else check_peer_with now st rest
  end.

Fixpoint CheckMetrics_with (now : Z) (st : S) (peers : list string)
  : S * option error :=
  match peers with
  | [] => (st, None)
  | peer :: rest =>
      match check_peer_with now st (PeerMetrics (store st) peer) with
      | (st', Some err) => (st', Some err)
      | (st', None) => CheckMetrics_with now st' rest
      end
  end.

End sweep_with.

(** [alert] on a checker paired with the list of the calls of [alert] made
    so far: the call is appended to the list whether or not it succeeds. *)
Definition alert_recorded (st : MetricsChecker * list Alert)
    (pid metricName : string) : (MetricsChecker * list Alert) * option error :=
  let res := alert st.1 pid metricName in
  ((res.1, st.2 ++ [{| AlertPeer := pid; MetricName := metricName |}]), res.2).

(** [CheckMetrics] with the record of the calls of [alert] it makes. *)
Definition CheckMetrics_recorded (now : Z) (mc : MetricsChecker)
    (peers : list string) : (MetricsChecker * list Alert) * option error :=
  CheckMetrics_with (λ st, metrics st.1) alert_recorded now (mc, []) peers.

(** *** What a sweep owes, in the words of the specification *)

(** "marked [Valid] and [Expired()]" *)
Definition is_due (now : Z) (m : Metric) : bool := Valid m && Expired now m.

(** The alert raised for a metric: [api.Alert{Peer: metric.Peer,
    MetricName: metric.Name}]. *)
Definition alert_of (m : Metric) : Alert :=
  {| AlertPeer := Peer m; MetricName := Name m |}.

(** The alerts one sweep over [peers] owes, in sweep order: one for each
    latest-per-kind metric of each listed peer that is valid and expired. *)
Definition alerts_due (now : Z) (mtrs : MetricStore) (peers : list string)
  : list Alert :=
  p ← peers; alert_of <$> filter (λ m, is_due now m = true) (PeerMetrics mtrs p).

(** The latest stored metric of [kind] for [p] is valid and expired. *)
Definition due (now : Z) (mtrs : MetricStore) (p kind : string) : bool :=
  match latest mtrs p kind with
  | Some m => is_due now m
  | None => false
  end.

(** The checker after the alerts of [alerts] that fit in the queue were
    enqueued in order, with the error raised when one does not fit. *)
Definition enqueue_all (mc : MetricsChecker) (alerts : list Alert)
  : MetricsChecker * option error :=
  let room := cap (alertCh mc) - length (buf (alertCh mc)) in
  ({| alertCh := {| buf := buf (alertCh mc) ++ take room alerts;
                    cap := cap (alertCh mc) |};
      metrics := metrics mc |},
   if decide (length alerts ≤ room) then None else Some ErrAlertChannelFull).

(** How many times [a] occurs in [l]. *)
Definition occurrences `{EqDecision A} (a : A) (l : list A) : nat :=
  length (filter (λ x, x = a) l).

(** One pass through the [select] of [Watch]: which case proceeds, and for
    a tick what the calls made in its branch are answered. *)
Inductive wakeup :=
| Tick (peersF : list string * option error) (now : Z)
    (* [<-ticker.C]; [peersF()] returns this pair; the sweep reads [now] *)
| Done.
    (* [<-ctx.Done()] *)

(** Where [Watch] stands: inside its [for] loop, or returned. *)
Inductive watching :=
| InLoop (mc : MetricsChecker)
| Returned (mc : MetricsChecker).

(** The body of the [for] loop of [Watch].  The value returned by
    [mc.CheckMetrics(peers)] is dropped, as in the source. *)
Definition Watch_body (mc : MetricsChecker) (w : wakeup) : watching :=
  match w with
  | Tick (peers, err) now =>
      match err with
      | Some _ => InLoop mc
      | None => InLoop (CheckMetrics now mc peers).1
      end
  | Done => Returned mc
  end.

(** [Watch] run against a finite sequence of wake-ups.  [InLoop] at the end
    of the sequence is the loop blocked in [select] waiting for the next
    one. *)
Fixpoint Watch (mc : MetricsChecker) (ws : list wakeup) : watching :=
  match ws with
  | [] => InLoop mc
  | w :: rest =>
      match Watch_body mc w with
      | InLoop mc' => Watch mc' rest
      | Returned mc' => Returned mc'
      end
  end.

(** The checker [Watch] is working on, or returned with. *)
Definition watch_checker (w : watching) : MetricsChecker :=
  match w with
  | InLoop mc => mc
  | Returned mc => mc
  end.

(** The alerts the sweeps of a wake-up sequence owe over a store, in order:
    those of every tick on which [peersF] succeeded, up to the first
    cancellation. *)
Fixpoint owed_by (mtrs : MetricStore) (ws : list wakeup) : list Alert :=
  match ws with
  | [] => []
  | Tick (peers, None) now :: rest => alerts_due now mtrs peers ++ owed_by mtrs rest
  | Tick (_, Some _) _ :: rest => owed_by mtrs rest
  | Done :: _ => []
  end.

End util.

(* ===================================================================== *)
(** ** Package [pubsubmon]: the monitor ([pubsubmon.go]) *)
(* ===================================================================== *)
Module pubsubmon.
Import util.

(** [var PubsubTopic = "pubsubmon"] *)
Definition PubsubTopic : string := "pubsubmon".

(** The msgpack multicodec, an interface of a library outside the
    repository: [Encode] fills a buffer or fails, [Decode] yields a metric
    or fails. *)
Class Codec := {
  Encode : Metric → bytes + error;
  Decode : bytes → Metric + error;
}.

(** Calls that leave the package, in the order they are made. *)
Inductive effect :=
| LogDebug
| LogInfo
| LogWarning
| LogError
| CloseRpcReady                            (* [close(mon.rpcReady)] *)
| CtxCancel                                (* [mon.cancel()] *)
| WgWait                                   (* [mon.wg.Wait()] *)
| Publish (topic : string) (data : bytes). (* [mon.pubsub.Publish] *)

#[global] Instance effect_eq_dec : EqDecision effect.
Proof. solve_decision. Defined.

(** [rpcReady], a [chan struct{}] made with capacity 1: how many values are
    queued, and whether it has been closed. *)
Record ReadyChan := {
  queued : nat;
  closed : bool;
}.

Definition rpcReadyCap : nat := 1.

Inductive send_result :=
| Sent (ch : ReadyChan)
| SendBlocks
| SendPanics.   (* send on closed channel *)

(** [ch <- struct{}{}] *)
Definition chan_send (ch : ReadyChan) : send_result :=
  if closed ch then SendPanics
  else if decide (queued ch < rpcReadyCap)
       then Sent {| queued := S (queued ch); closed := false |}
       else SendBlocks.

(** [close(ch)]; [None] is the panic of closing a closed channel. *)
Definition chan_close (ch : ReadyChan) : option ReadyChan :=
  if closed ch then None
  else Some {| queued := queued ch; closed := true |}.

(** [<-ch] as a [select] case: a queued value is taken; a closed and
    drained channel yields at once; otherwise the case cannot proceed. *)
Definition chan_recv (ch : ReadyChan) : option ReadyChan :=
  match queued ch with
  | S n => Some {| queued := n; closed := closed ch |}
  | O => if closed ch then Some ch else None
  end.

(** The fields of [Monitor] that the code below reads or writes.  [host],
    [pubsub], [subscription] and [config] are handles to collaborators.
    [mon.metrics] and [mon.checker.metrics] point to one store: it is kept
    once, inside [checker]. *)
Record Monitor := {
  cancelled : bool;     (* [ctx] has been cancelled *)
  rpcClient : bool;     (* [rpcClient] is non-nil *)
  rpcReady : ReadyChan;
  checker : MetricsChecker;
  shutdown : bool;
  wg : nat;             (* the counter of the [sync.WaitGroup] *)
}.

Definition mon_metrics (mon : Monitor) : MetricStore := metrics (checker mon).

Definition set_checker (mon : Monitor) (mc : MetricsChecker) : Monitor :=
  {| cancelled := cancelled mon; rpcClient := rpcClient mon;
     rpcReady := rpcReady mon; checker := mc;
     shutdown := shutdown mon; wg := wg mon |}.

Definition set_rpcReady (mon : Monitor) (ch : ReadyChan) : Monitor :=
  {| cancelled := cancelled mon; rpcClient := rpcClient mon;
     rpcReady := ch; checker := checker mon;
     shutdown := shutdown mon; wg := wg mon |}.

(** How a call made by the owning system ends. *)
Inductive outcome (A : Type) :=
| Returns (mon : Monitor) (trace : list effect) (res : A)
| Blocks
| Panics.
Arguments Returns {A} mon trace res.
Arguments Blocks {A}.
Arguments Panics {A}.

(** The monitor [New] returns on its success path, the only path that
    returns a monitor. *)
Definition New : Monitor :=
  {| cancelled := false;
     rpcClient := false;
     rpcReady := {| queued := 0; closed := false |};
     checker := NewMetricsChecker NewMetricStore;
     shutdown := false;
     wg := 0 |}.

(** [SetClient] *)
Definition SetClient (mon : Monitor) : outcome unit :=
  let mon := {| cancelled := cancelled mon; rpcClient := true;
                rpcReady := rpcReady mon; checker := checker mon;
                shutdown := shutdown mon; wg := wg mon |} in
  match chan_send (rpcReady mon) with
  | Sent ch => Returns (set_rpcReady mon ch) [] tt
  | SendBlocks => Blocks
  | SendPanics => Panics
  end.

(** [Shutdown].  The lock makes the body atomic with respect to other
    calls of [Shutdown]; [wg.Wait()] returns once the counter is zero. *)
Definition Shutdown (mon : Monitor) : outcome (option error) :=
  if shutdown mon then Returns mon [LogWarning] None
  else
    match chan_close (rpcReady mon) with
    | None => Panics
    | Some ch =>
        if decide (wg mon = 0) then
          Returns {| cancelled := true; rpcClient := rpcClient mon;
                     rpcReady := ch; checker := checker mon;
                     shutdown := true; wg := wg mon |}
                  [LogInfo; CloseRpcReady; CtxCancel; WgWait] None
        else Blocks
    end.

Section monitor.

Variable WindowCap : nat.
Context `{Codec}.

(** [LogMetric] *)
Definition LogMetric (mon : Monitor) (m : Metric)
  : Monitor * list effect * option error :=
  let mc := {| alertCh := alertCh (checker mon);
               metrics := Add WindowCap (mon_metrics mon) m |} in
  (set_checker mon mc, [LogDebug], None).

(** [PublishMetric]; [published] is what [mon.pubsub.Publish] answers if it
    is called. *)
Definition PublishMetric (published : option error) (m : Metric)
  : list effect * option error :=
  if Discard m then ([LogWarning], None)
  else
    match Encode m with
    | inr err => ([LogError], Some err)
    | inl b =>
        match published with
        | Some err => ([LogDebug; Publish PubsubTopic b; LogError], Some err)
        | None => ([LogDebug; Publish PubsubTopic b], None)
        end
    end.

(** [getPeers]; [called] is what [mon.rpcClient.Call] leaves in [peers] and
    returns as [err].  The rpc client belongs to a library outside the
    repository: what [Call] does on a nil client is not distinguished from
    its other answers. *)
Definition getPeers (called : list string * option error)
  : list string * option error * list effect :=
  match called.2 with
  | Some _ => (called, [LogError])
  | None => (called, [])
  end.

(** [LatestMetrics] *)
Definition LatestMetrics (now : Z) (called : list string * option error)
    (mon : Monitor) (name : string) : list Metric :=
  let latest := Latest now (mon_metrics mon) name in
  let '(peers, err, _) := getPeers called in
  match err with
  | Some _ => []
  | None => PeersetFilter latest peers
  end.

(** [Monitor.Alerts]: the channel of the checker. *)
Definition Alerts (mon : Monitor) : AlertChan := util.Alerts (checker mon).

(** *** The goroutines *)

(** [run]: at its [select], or returned. *)
Inductive run_pc := RunSelect | RunReturned.

(** [logFromPubsub]: not started; at the [select]; in
    [mon.subscription.Next]; holding a message; holding a decoded metric
    before [mon.LogMetric(metric)]; returned. *)
Inductive recv_pc :=
| RecvNotStarted
| RecvSelect
| RecvNext
| RecvMsg (data : bytes)
| RecvLog (metric : Metric)
| RecvReturned.

(** [checker.Watch]: not started; at the [select]; in [peersF()]; holding
    the peers before [mc.CheckMetrics(peers)]; returned. *)
Inductive watch_pc :=
| WatchNotStarted
| WatchSelect
| WatchPeersF
| WatchCheck (peers : list string)
| WatchReturned.

(** The monitor with its three goroutines. *)
Record System := {
  mon : Monitor;
  run : run_pc;
  recv : recv_pc;
  watch : watch_pc;
}.

(** [New] followed by [go mon.run()]. *)
Definition start : System :=
  {| mon := New; run := RunSelect; recv := RecvNotStarted; watch := WatchNotStarted |}.

(** One scheduling step: a call of the owning system run to its return, or
    one goroutine advancing by one statement, with the answer of the
    collaborator it calls. *)
Inductive event :=
| CallSetClient
| CallShutdown
| CallLogMetric (m : Metric)
| CallPublishMetric (published : option error) (m : Metric)
| ConsumeAlert                      (* the owner receives from [Alerts()] *)
| RunRpcReady                       (* [run]: [case <-mon.rpcReady] *)
| RunCtxDone                        (* [run]: [case <-mon.ctx.Done()] *)
| RecvAtSelect                      (* [logFromPubsub]: the [select] *)
| RecvNextMsg (data : bytes)        (* [Next] returns a message *)
| RecvNextErr                       (* [Next] returns an error *)
| RecvDecode                        (* [dec.Decode(&metric)] *)
| RecvLogMetric                     (* [mon.LogMetric(metric)] *)
| WatchTick                         (* [Watch]: [case <-ticker.C] *)
| WatchCtxDone                      (* [Watch]: [case <-ctx.Done()] *)
| WatchGetPeers (called : list string * option error)
| WatchCheckMetrics (now : Z).

#[global] Instance event_eq_dec : EqDecision event.
Proof. solve_decision. Defined.

Definition with_mon (s : System) (m : Monitor) : System :=
  {| mon := m; run := run s; recv := recv s; watch := watch s |}.

Definition with_recv (s : System) (pc : recv_pc) : System :=
  {| mon := mon s; run := run s; recv := pc; watch := watch s |}.

Definition with_watch (s : System) (pc : watch_pc) : System :=
  {| mon := mon s; run := run s; recv := recv s; watch := pc |}.

(** [step s e] is the state after [e], or [None] when [e] cannot happen in
    [s]: the goroutine is elsewhere, the [select] case is not ready, or the
    call blocks or panics. *)
Definition step (s : System) (e : event) : option System :=
  match e with
  | CallSetClient =>
      match SetClient (mon s) with
      | Returns m _ _ => Some (with_mon s m)
      | _ => None
      end
  | CallShutdown =>
      match Shutdown (mon s) with
      | Returns m _ _ => Some (with_mon s m)
      | _ => None
      end
  | CallLogMetric m => Some (with_mon s (LogMetric (mon s) m).1.1)
  | CallPublishMetric _ _ => Some s
  | ConsumeAlert =>
      match try_recv (alertCh (checker (mon s))) with
      | Some (_, ch) =>
          Some (with_mon s (set_checker (mon s)
                  {| alertCh := ch; metrics := mon_metrics (mon s) |}))
      | None => None
      end
  | RunRpcReady =>
      match run s, chan_recv (rpcReady (mon s)) with
      | RunSelect, Some ch =>
          (* [go mon.logFromPubsub()]; [go mon.checker.Watch(...)] *)
          Some {| mon := set_rpcReady (mon s) ch; run := RunReturned;
                  recv := RecvSelect; watch := WatchSelect |}
      | _, _ => None
      end
  | RunCtxDone =>
      match run s with
      | RunSelect =>
          if cancelled (mon s)
          then Some {| mon := mon s; run := RunReturned;
                       recv := recv s; watch := watch s |}
          else None
      | _ => None
      end
  | RecvAtSelect =>
      match recv s with
      | RecvSelect =>
          (* [default] is taken only when [ctx.Done()] is not ready *)
          if cancelled (mon s) then Some (with_recv s RecvReturned)
          else Some (with_recv s RecvNext)
      | _ => None
      end
  | RecvNextMsg data =>
      match recv s with
      | RecvNext => Some (with_recv s (RecvMsg data))
      | _ => None
      end
  | RecvNextErr =>
      match recv s with
      | RecvNext => Some (with_recv s RecvSelect)   (* [continue] *)
      | _ => None
      end
  | RecvDecode =>
      match recv s with
      | RecvMsg data =>
          match Decode data with
          | inr _ => Some (with_recv s RecvSelect)  (* [continue] *)
          | inl metric => Some (with_recv s (RecvLog metric))
          end
      | _ => None
      end
  | RecvLogMetric =>
      match recv s with
      | RecvLog metric =>
          Some (with_recv (with_mon s (LogMetric (mon s) metric).1.1) RecvSelect)
      | _ => None
      end
  | WatchTick =>
      match watch s with
      | WatchSelect => Some (with_watch s WatchPeersF)
      | _ => None
      end
  | WatchCtxDone =>
      match watch s with
      | WatchSelect =>
          if cancelled (mon s) then Some (with_watch s WatchReturned) else None
      | _ => None
      end
  | WatchGetPeers called =>
      match watch s with
      | WatchPeersF =>
          match (getPeers called).1 with
          | (_, Some _) => Some (with_watch s WatchSelect)   (* [continue] *)
          | (peers, None) => Some (with_watch s (WatchCheck peers))
          end
      | _ => None
      end
  | WatchCheckMetrics now =>
      match watch s with
      | WatchCheck peers =>
          Some (with_watch
                  (with_mon s (set_checker (mon s)
                     (CheckMetrics now (checker (mon s)) peers).1))
                  WatchSelect)
      | _ => None
      end
  end.

(** The [Publish] calls of a trace, as (topic, payload) pairs. *)
Definition publishes (trace : list effect) : list (string * bytes) :=
  omap (λ e, match e with Publish t d => Some (t, d) | _ => None end) trace.

(** The teardown calls of a trace: channel close, cancellation, waiting. *)
Definition teardown (trace : list effect) : list effect :=
  filter (λ e, e = CloseRpcReady ∨ e = CtxCancel ∨ e = WgWait) trace.

(** The monitor as [New] and [go mon.run()] leave it, its store apart:
    [run] waits at its [select], no loop is started, nothing is queued on
    [rpcReady] or on the alert channel, nothing is closed or cancelled. *)
Definition unarmed (s : System) : Prop :=
  run s = RunSelect ∧ recv s = RecvNotStarted ∧ watch s = WatchNotStarted
  ∧ rpcReady (mon s) = {| queued := 0; closed := false |}
  ∧ cancelled (mon s) = false ∧ shutdown (mon s) = false
  ∧ buf (alertCh (checker (mon s))) = [].

(** How many iterations the receive loop has under way: one from the call
    of [Next] to the end of the loop body, none elsewhere. *)
Definition in_flight (pc : recv_pc) : nat :=
  match pc with
  | RecvNext | RecvMsg _ | RecvLog _ => 1
  | RecvNotStarted | RecvSelect | RecvReturned => 0
  end.

(** How many more times [run] can leave its [select]. *)
Definition run_pending (pc : run_pc) : nat :=
  match pc with
  | RunSelect => 1
  | RunReturned => 0
  end.

(** The metrics a step hands towards [LogMetric] are marked valid: the
    argument of a direct call, and what an inbound payload decodes to. *)
Definition logs_valid (e : event) : bool :=
  match e with
  | CallLogMetric m => Valid m
  | RecvNextMsg data =>
      match Decode data with
      | inl m => Valid m
      | inr _ => true
      end
  | _ => true
  end.

(** A schedule run from a state; [None] if one of its steps cannot
    happen. *)
Fixpoint exec (s : System) (es : list event) : option System :=
  match es with
  | [] => Some s
  | e :: rest =>
      match step s e with
      | Some s' => exec s' rest
      | None => None
      end
  end.

End monitor.

End pubsubmon.

(* ===================================================================== *)
(** ** Sample data for the worked examples *)
(* ===================================================================== *)
Module samples.
Import util pubsubmon.

(** A valid metric of peer [QmA] that expires at time 100. *)
Definition ping_A : Metric :=
  {| Name := "ping"; Peer := "QmA"; Value := "1"; Expire := 100; Valid := true |}.

(** A metric with no name that is marked invalid. *)
Definition unnamed_B : Metric :=
  {| Name := ""; Peer := "QmB"; Value := "1"; Expire := 100; Valid := false |}.

(** A store holding [ping_A] only (window size 1). *)
Definition store_A : MetricStore := Add 1 NewMetricStore ping_A.

(** A checker over [store_A] whose queue of the default capacity is full
    of unconsumed alerts. *)
Definition full_checker : MetricsChecker :=
  {| alertCh := {| buf := replicate AlertChannelCap (alert_of ping_A);
                   cap := AlertChannelCap |};
     metrics := store_A |}.

(** A codec in which every payload decodes to [ping_A] and every metric
    encodes to the empty payload. *)
Definition codec_A : Codec :=
  {| Encode := λ _, inl []; Decode := λ _, inl ping_A |}.

(** A codec in which every payload decodes to [unnamed_B]. *)
Definition codec_B : Codec :=
  {| Encode := λ _, inl []; Decode := λ _, inl unnamed_B |}.

(** A codec that rejects the empty payload and decodes every other one to
    [ping_A]. *)
Definition codec_C : Codec :=
  {| Encode := λ _, inl [Byte.x01];
     Decode := λ data, match data with
                       | [] => inr (ExternalError "malformed")
                       | _ => inl ping_A
                       end |}.

(** The monitor after [SetClient] and the launch of the loops, with the
    receive loop waiting in [Next]. *)
Definition listening : System :=
  {| mon := {| cancelled := false; rpcClient := true;
               rpcReady := {| queued := 0; closed := false |};
               checker := NewMetricsChecker NewMetricStore;
               shutdown := false; wg := 0 |};
     run := RunReturned; recv := RecvNext; watch := WatchSelect |}.

End samples.

(* ===================================================================== *)
(** ** Facts about the metric store *)
(* ===================================================================== *)
Import util pubsubmon.

Section store_facts.

Variable WindowCap : nat.

Lemma window_add_elem (window : list Metric) (m x : Metric) :
  x ∈ window_add WindowCap window m → x = m ∨ x ∈ window.
Proof.
  unfold window_add. intros Hx.
  apply (subseteq_drop _ (window ++ [m])) in Hx.
  apply elem_of_app in Hx as [Hx | Hx]; [by right |].
  left. by apply list_elem_of_singleton in Hx.
Qed.

Lemma window_add_last (window : list Metric) (m : Metric) :
  0 < WindowCap → last (window_add WindowCap window m) = Some m.
Proof.
  intros Hcap. unfold window_add.
  rewrite last_lookup, lookup_drop, length_drop, length_app. simpl.
  rewrite lookup_app_r by lia.
  replace (length window + 1 - WindowCap
           + pred (length window + 1 - (length window + 1 - WindowCap))
           - length window) with 0 by lia.
  done.
Qed.

Lemma window_add_length (window : list Metric) (m : Metric) :
  length window ≤ WindowCap →
  length (window_add WindowCap window m) ≤ WindowCap.
Proof.
  intros Hlen. unfold window_add. rewrite length_drop, length_app. simpl. lia.
Qed.

(** What [Add] leaves at each key of the store. *)
Lemma Add_lookup (mtrs : MetricStore) (m : Metric) (p kind : string)
    (byKind : gmap string (list Metric)) (window : list Metric) :
  Add WindowCap mtrs m !! p = Some byKind →
  byKind !! kind = Some window →
  (p = Peer m ∧ kind = Name m ∧
   window = window_add WindowCap
              (default [] (default ∅ (mtrs !! Peer m) !! Name m)) m)
  ∨ (∃ byKind', mtrs !! p = Some byKind' ∧ byKind' !! kind = Some window).
Proof.
  unfold Add. intros Hp Hk.
  destruct (decide (p = Peer m)) as [-> | Hne].
  - rewrite lookup_insert_eq in Hp. injection Hp as <-.
    destruct (decide (kind = Name m)) as [-> | Hnk].
    + rewrite lookup_insert_eq in Hk. injection Hk as <-. by left.
    + rewrite lookup_insert_ne in Hk by done. right.
      destruct (mtrs !! Peer m) as [byKind' |] eqn:E; simpl in Hk.
      * by exists byKind'.
      * by rewrite lookup_empty in Hk.
  - rewrite lookup_insert_ne in Hp by done. right. by exists byKind.
Qed.

Lemma default_window_elem (mtrs : MetricStore) (p kind : string) (x : Metric) :
  x ∈ default [] (default ∅ (mtrs !! p) !! kind) →
  ∃ byKind window,
    mtrs !! p = Some byKind ∧ byKind !! kind = Some window ∧ x ∈ window.
Proof.
  destruct (mtrs !! p) as [byKind |] eqn:Ep; simpl.
  - destruct (byKind !! kind) as [window |] eqn:Ek; simpl.
    + intros Hx. by exists byKind, window.
    + by intros ?%elem_of_nil.
  - rewrite lookup_empty. simpl. by intros ?%elem_of_nil.
Qed.

(** A metric held after [Add] is the added one or was held before. *)
Lemma stored_Add (mtrs : MetricStore) (m x : Metric) :
  stored (Add WindowCap mtrs m) x → x = m ∨ stored mtrs x.
Proof.
  intros (p & byKind & kind & window & Hp & Hk & Hx).
  destruct (Add_lookup _ _ _ _ _ _ Hp Hk) as [(-> & -> & ->) | (byKind' & Hp' & Hk')].
  - apply window_add_elem in Hx as [-> | Hx]; [by left | right].
    apply default_window_elem in Hx as (bk & w & ? & ? & ?).
    by exists (Peer m), bk, (Name m), w.
  - right. by exists p, byKind', kind, window.
Qed.

(** With a positive window, the added metric is held, as the latest of its
    key. *)
Lemma latest_Add (mtrs : MetricStore) (m : Metric) :
  0 < WindowCap → latest (Add WindowCap mtrs m) (Peer m) (Name m) = Some m.
Proof.
  intros Hcap. unfold latest, Add.
  rewrite lookup_insert_eq. simpl. rewrite lookup_insert_eq. simpl.
  by apply window_add_last.
Qed.

Lemma latest_stored (mtrs : MetricStore) (p kind : string) (m : Metric) :
  latest mtrs p kind = Some m → stored mtrs m.
Proof.
  unfold latest. intros H.
  destruct (mtrs !! p) as [byKind |] eqn:Ep; [| done]. simpl in H.
  destruct (byKind !! kind) as [window |] eqn:Ek; [| done]. simpl in H.
  exists p, byKind, kind, window. split_and!; [done | done |].
  by apply last_Some_elem_of.
Qed.

Lemma store_wf_empty : store_wf NewMetricStore.
Proof.
  intros p byKind kind window m Hp. unfold NewMetricStore in Hp.
  by rewrite lookup_empty in Hp.
Qed.

Lemma store_wf_Add (mtrs : MetricStore) (m : Metric) :
  store_wf mtrs → store_wf (Add WindowCap mtrs m).
Proof.
  intros Hwf p byKind kind window x Hp Hk Hx.
  destruct (Add_lookup _ _ _ _ _ _ Hp Hk) as [(-> & -> & ->) | (byKind' & Hp' & Hk')].
  - apply window_add_elem in Hx as [-> | Hx]; [done |].
    apply default_window_elem in Hx as (bk & w & Hb & Hw & Hx).
    exact (Hwf _ _ _ _ _ Hb Hw Hx).
  - exact (Hwf _ _ _ _ _ Hp' Hk' Hx).
Qed.

Lemma store_wf_foldl (ms : list Metric) (mtrs : MetricStore) :
  store_wf mtrs → store_wf (foldl (Add WindowCap) mtrs ms).
Proof.
  revert mtrs. induction ms as [| m ms IH]; intros mtrs Hwf; simpl; [done |].
  apply IH. by apply store_wf_Add.
Qed.

End store_facts.

(* ===================================================================== *)
(** ** Facts about the metrics checker *)
(* ===================================================================== *)
Section checker_facts.

Implicit Types (mc : MetricsChecker) (a : Alert) (m : Metric).

Lemma alert_metrics mc pid name : metrics (alert mc pid name).1 = metrics mc.
Proof. unfold alert. by destruct (try_send _ _). Qed.

Lemma alert_cap mc pid name :
  cap (alertCh (alert mc pid name).1) = cap (alertCh mc).
Proof.
  unfold alert, try_send. by destruct (decide _).
Qed.

(** [alert] fails exactly on a full buffer, and then changes nothing. *)
Lemma alert_full mc pid name :
  cap (alertCh mc) ≤ length (buf (alertCh mc)) →
  alert mc pid name = (mc, Some ErrAlertChannelFull).
Proof.
  intros Hfull. unfold alert, try_send.
  destruct (decide _) as [Hlt | _]; [lia | done].
Qed.

Lemma alert_room mc pid name :
  length (buf (alertCh mc)) < cap (alertCh mc) →
  alert mc pid name =
    ({| alertCh := {| buf := buf (alertCh mc)
                             ++ [{| AlertPeer := pid; MetricName := name |}];
                      cap := cap (alertCh mc) |};
        metrics := metrics mc |}, None).
Proof.
  intros Hroom. unfold alert, try_send.
  destruct (decide _) as [_ | Hge]; [done | lia].
Qed.

Lemma enqueue_all_nil mc : enqueue_all mc [] = (mc, None).
Proof.
  unfold enqueue_all. rewrite take_nil, app_nil_r.
  by destruct mc as [[b c] mtrs].
Qed.

Lemma enqueue_all_cons mc a alerts :
  enqueue_all mc (a :: alerts) =
    match alert mc (AlertPeer a) (MetricName a) with
    | (mc', Some err) => (mc', Some err)
    | (mc', None) => enqueue_all mc' alerts
    end.
Proof.
  destruct (decide (length (buf (alertCh mc)) < cap (alertCh mc))) as [Hlt | Hge].
  - rewrite alert_room by done. unfold enqueue_all. simpl.
    rewrite length_app. simpl.
    replace (cap (alertCh mc) - length (buf (alertCh mc)))
      with (S (cap (alertCh mc) - (length (buf (alertCh mc)) + 1))) by lia.
    simpl. rewrite <- app_assoc. simpl. destruct a as [pid name]; simpl.
    f_equal. repeat case_decide; done || lia.
  - rewrite alert_full by lia. unfold enqueue_all.
    replace (cap (alertCh mc) - length (buf (alertCh mc))) with 0 by lia.
    simpl. rewrite app_nil_r. by destruct mc as [[b c] mtrs].
Qed.

Lemma enqueue_all_metrics mc alerts :
  metrics (enqueue_all mc alerts).1 = metrics mc.
Proof. done. Qed.

Lemma enqueue_all_app mc alerts1 alerts2 :
  enqueue_all mc (alerts1 ++ alerts2) =
    match enqueue_all mc alerts1 with
    | (mc', Some err) => (mc', Some err)
    | (mc', None) => enqueue_all mc' alerts2
    end.
Proof.
  revert mc. induction alerts1 as [| a alerts1 IH]; intros mc.
  - by rewrite enqueue_all_nil.
  - rewrite <- app_comm_cons, !enqueue_all_cons.
    destruct (alert mc _ _) as [mc' [err |]]; [done | apply IH].
Qed.

(** The inner loop enqueues the alerts of the valid, expired metrics it is
    given, in order, until one does not fit. *)
Lemma check_peer_enqueue now mc (ms : list Metric) :
  check_peer now mc ms =
    enqueue_all mc (alert_of <$> filter (λ m, is_due now m = true) ms).
Proof.
  revert mc. induction ms as [| m ms IH]; intros mc.
  - simpl. by rewrite enqueue_all_nil.
  - simpl. rewrite filter_cons.
    change (Valid m && Expired now m) with (is_due now m).
    destruct (decide (is_due now m = true)) as [Hdue | Hdue].
    + rewrite Hdue, fmap_cons, enqueue_all_cons. simpl.
      destruct (alert mc _ _) as [mc' [err |]]; [done | apply IH].
    + apply not_true_is_false in Hdue. rewrite Hdue. apply IH.
Qed.

(** [CheckMetrics] enqueues the alerts the sweep owes, in order, until one
    does not fit. *)
Lemma CheckMetrics_enqueue now mc peers :
  CheckMetrics now mc peers =
    enqueue_all mc (alerts_due now (metrics mc) peers).
Proof.
  unfold alerts_due.
  remember (metrics mc) as mtrs eqn:Hm. revert mc Hm.
  induction peers as [| p peers IH]; intros mc Hm.
  - simpl. by rewrite enqueue_all_nil.
  - simpl. rewrite enqueue_all_app, <- Hm, <- check_peer_enqueue.
    destruct (check_peer now mc _) as [mc' [err |]] eqn:Hc; [done |].
    apply IH. rewrite Hm.
    change mc' with (mc', @None error).1. rewrite <- Hc.
    by rewrite check_peer_enqueue, enqueue_all_metrics.
Qed.

End checker_facts.

(* ===================================================================== *)
(** ** Which alerts a sweep owes *)
(* ===================================================================== *)
Section due_facts.

Implicit Types (mtrs : MetricStore) (a : Alert) (m : Metric) (p kind : string).

Lemma occurrences_nil `{EqDecision A} (x : A) : occurrences x [] = 0.
Proof. done. Qed.

Lemma occurrences_cons `{EqDecision A} (x y : A) (l : list A) :
  occurrences x (y :: l) = (if decide (y = x) then 1 else 0) + occurrences x l.
Proof. unfold occurrences. rewrite filter_cons. by case_decide. Qed.

Lemma occurrences_app `{EqDecision A} (x : A) (l1 l2 : list A) :
  occurrences x (l1 ++ l2) = occurrences x l1 + occurrences x l2.
Proof. unfold occurrences. by rewrite filter_app, length_app. Qed.

Lemma occurrences_absent `{EqDecision A} (x : A) (l : list A) :
  x ∉ l → occurrences x l = 0.
Proof.
  induction l as [| y l IH]; [done |].
  rewrite not_elem_of_cons, occurrences_cons. intros [Hne Hl].
  rewrite decide_False by done. by rewrite IH.
Qed.

Lemma occurrences_NoDup `{EqDecision A} (x : A) (l : list A) :
  NoDup l → occurrences x l = if decide (x ∈ l) then 1 else 0.
Proof.
  induction 1 as [| y l Hy Hl IH]; [done |].
  rewrite occurrences_cons, IH.
  destruct (decide (y = x)) as [-> | Hne].
  - rewrite (decide_False (P := x ∈ l)) by done.
    rewrite decide_True; [done | by left].
  - destruct (decide (x ∈ l)) as [Hin | Hout].
    + rewrite decide_True; [done | by right].
    + rewrite decide_False; [done |].
      rewrite not_elem_of_cons. split; [congruence | done].
Qed.

Lemma occurrences_take `{EqDecision A} (x : A) (n : nat) (l : list A) :
  occurrences x (take n l) ≤ occurrences x l.
Proof.
  rewrite <- (take_drop n l) at 2. rewrite occurrences_app. lia.
Qed.

(** [PeerMetrics] lists exactly the latest metric of each kind. *)
Lemma PeerMetrics_elem mtrs p m :
  m ∈ PeerMetrics mtrs p ↔ ∃ kind, latest mtrs p kind = Some m.
Proof.
  unfold PeerMetrics, latest.
  destruct (mtrs !! p) as [byKind |] eqn:Ep; simpl.
  - rewrite list_elem_of_omap. split.
    + intros ([kind window] & Hin & Hlast). exists kind.
      apply elem_of_map_to_list in Hin. by rewrite Hin.
    + intros (kind & Hk).
      destruct (byKind !! kind) as [window |] eqn:Ek; [| done].
      exists (kind, window). split; [by apply elem_of_map_to_list | done].
  - split; [by intros ?%elem_of_nil | by intros [? ?]].
Qed.

Lemma latest_wf mtrs p kind m :
  store_wf mtrs → latest mtrs p kind = Some m → Peer m = p ∧ Name m = kind.
Proof.
  unfold latest. intros Hwf H.
  destruct (mtrs !! p) as [byKind |] eqn:Ep; [| done]. simpl in H.
  destruct (byKind !! kind) as [window |] eqn:Ek; [| done]. simpl in H.
  apply last_Some_elem_of in H. exact (Hwf _ _ _ _ _ Ep Ek H).
Qed.

Lemma names_sublist (l : list (string * list Metric)) :
  (∀ kind window m, (kind, window) ∈ l → last window = Some m → Name m = kind) →
  Name <$> omap (λ kw : string * list Metric, last kw.2) l `sublist_of` l.*1.
Proof.
  induction l as [| [kind window] l IH]; intros Hl; [done |].
  simpl. destruct (last window) as [m |] eqn:Hlast; simpl.
  - rewrite (Hl kind window m); [| by left | done].
    apply sublist_skip, IH. intros k w x Hin. apply Hl. by right.
  - apply sublist_cons, IH. intros k w x Hin. apply Hl. by right.
Qed.

(** In a well-formed store the metrics of a peer have distinct names. *)
Lemma PeerMetrics_names_NoDup mtrs p :
  store_wf mtrs → NoDup (Name <$> PeerMetrics mtrs p).
Proof.
  intros Hwf. unfold PeerMetrics.
  destruct (mtrs !! p) as [byKind |] eqn:Ep; [| constructor].
  apply (sublist_NoDup _ (map_to_list byKind).*1);
    [apply NoDup_fst_map_to_list |].
  apply names_sublist. intros kind window m Hin Hlast.
  apply elem_of_map_to_list in Hin.
  apply last_Some_elem_of in Hlast.
  by destruct (Hwf _ _ _ _ _ Ep Hin Hlast).
Qed.

(** The alerts owed for one peer: no alert twice. *)
Lemma peer_alerts_NoDup now mtrs p :
  store_wf mtrs →
  NoDup (alert_of <$> filter (λ m, is_due now m = true) (PeerMetrics mtrs p)).
Proof.
  intros Hwf. apply NoDup_fmap_2_strong.
  - intros m1 m2 [_ H1]%list_elem_of_filter [_ H2]%list_elem_of_filter Heq.
    apply PeerMetrics_elem in H1 as [k1 H1], H2 as [k2 H2].
    destruct (latest_wf _ _ _ _ Hwf H1) as [_ <-].
    destruct (latest_wf _ _ _ _ Hwf H2) as [_ <-].
    assert (Name m1 = Name m2) as Hn by (by injection Heq).
    rewrite Hn in H1. congruence.
  - apply NoDup_filter. eapply NoDup_fmap_1, PeerMetrics_names_NoDup. done.
Qed.

(** The alerts owed for one peer: exactly those of its due kinds. *)
Lemma peer_alerts_elem now mtrs p a :
  store_wf mtrs →
  a ∈ alert_of <$> filter (λ m, is_due now m = true) (PeerMetrics mtrs p)
  ↔ AlertPeer a = p ∧ due now mtrs p (MetricName a) = true.
Proof.
  intros Hwf. rewrite list_elem_of_fmap. unfold due. split.
  - intros (m & -> & [Hdue Hin]%list_elem_of_filter).
    apply PeerMetrics_elem in Hin as [kind Hl].
    destruct (latest_wf _ _ _ _ Hwf Hl) as [Hp Hk]. simpl.
    split; [done |]. by rewrite Hk, Hl.
  - intros [Hp Hdue].
    destruct (latest mtrs p (MetricName a)) as [m |] eqn:Hl; [| done].
    destruct (latest_wf _ _ _ _ Hwf Hl) as [Hmp Hmk].
    exists m. split.
    + destruct a as [pid name]; simpl in *. unfold alert_of. congruence.
    + apply list_elem_of_filter. split; [done |].
      apply PeerMetrics_elem. by exists (MetricName a).
Qed.

(** Every owed alert occurs once per occurrence of its peer in the list
    swept, and alerts that are not owed do not occur. *)
Lemma alerts_due_occurrences now mtrs peers a :
  store_wf mtrs →
  occurrences a (alerts_due now mtrs peers) =
    if due now mtrs (AlertPeer a) (MetricName a)
    then occurrences (AlertPeer a) peers else 0.
Proof.
  intros Hwf. unfold alerts_due.
  induction peers as [| p peers IH].
  - simpl. rewrite !occurrences_nil. by destruct (due _ _ _ _).
  - rewrite bind_cons, occurrences_app, IH, occurrences_cons.
    rewrite occurrences_NoDup by by apply peer_alerts_NoDup.
    destruct (decide (p = AlertPeer a)) as [-> | Hne].
    + destruct (due now mtrs (AlertPeer a) (MetricName a)) eqn:Hdue.
      * rewrite decide_True; [done |]. by apply peer_alerts_elem.
      * rewrite decide_False; [done |].
        rewrite peer_alerts_elem by done. intros [_ ?]. congruence.
    + rewrite decide_False.
      * by destruct (due _ _ _ _).
      * rewrite peer_alerts_elem by done. intros [? _]. congruence.
Qed.

End due_facts.

(* ===================================================================== *)
(** ** The sweep: [CheckMetrics] and [alert] *)
(* ===================================================================== *)
Section sweep.

Implicit Types (mc : MetricsChecker) (a : Alert) (m : Metric).

(** C3, as stated, fails on a full queue: peer [QmA] is in the set swept
    and its latest [ping] metric is valid and expired, the queue holds 256
    unconsumed alerts (as 256 earlier sweeps leave it), and the sweep
    enqueues no alert for [(QmA, ping)]: the checker is unchanged. *)
Lemma CheckMetrics_full_queue_no_alert :
  Watch (NewMetricsChecker samples.store_A)
        (replicate 256 (Tick (["QmA"], None) 200%Z))
    = InLoop samples.full_checker
  ∧ "QmA" ∈ ["QmA"]
  ∧ latest samples.store_A "QmA" "ping" = Some samples.ping_A
  ∧ Valid samples.ping_A = true
  ∧ Expired 200 samples.ping_A = true
  ∧ CheckMetrics 200 samples.full_checker ["QmA"]
    = (samples.full_checker, Some ErrAlertChannelFull).
Proof.
  split_and!; [by vm_compute | by left | by vm_compute ..].
Qed.

(** C3 (amended): in a well-formed store, a sweep appends to the queue, for
    each peer [P] and kind, at most one alert per occurrence of [P] in the
    peer list when [P]'s latest metric of that kind is valid and expired,
    and none otherwise; in particular none for a peer absent from the list.
    When the sweep returns no error it appends exactly that many: exactly
    one for each due kind of each peer of a duplicate-free peer set. *)
Theorem CheckMetrics_alerts_once now mc peers :
  store_wf (metrics mc) →
  ∃ emitted,
    buf (alertCh (CheckMetrics now mc peers).1) = buf (alertCh mc) ++ emitted
    ∧ (∀ P kind, P ∉ peers →
         occurrences {| AlertPeer := P; MetricName := kind |} emitted = 0)
    ∧ (∀ P kind,
         occurrences {| AlertPeer := P; MetricName := kind |} emitted
         ≤ if due now (metrics mc) P kind then occurrences P peers else 0)
    ∧ ((CheckMetrics now mc peers).2 = None →
       (∀ P kind,
          occurrences {| AlertPeer := P; MetricName := kind |} emitted
          = if due now (metrics mc) P kind then occurrences P peers else 0)
       ∧ (NoDup peers → ∀ P kind, P ∈ peers →
            occurrences {| AlertPeer := P; MetricName := kind |} emitted
            = if due now (metrics mc) P kind then 1 else 0)).
Proof.
  intros Hwf. rewrite CheckMetrics_enqueue. unfold enqueue_all. simpl.
  set (owed := alerts_due now (metrics mc) peers).
  set (room := cap (alertCh mc) - length (buf (alertCh mc))).
  exists (take room owed).
  assert (Hle : ∀ P kind,
            occurrences {| AlertPeer := P; MetricName := kind |} (take room owed)
            ≤ if due now (metrics mc) P kind then occurrences P peers else 0).
  { intros P kind. etrans; [apply occurrences_take |].
    unfold owed. by rewrite alerts_due_occurrences. }
  split_and!; [done | | done |].
  - intros P kind Hout. specialize (Hle P kind).
    rewrite (occurrences_absent P peers Hout) in Hle.
    destruct (due _ _ _ _); lia.
  - intros Hok. case_decide as Hfit; [| done].
    rewrite take_ge by done.
    assert (Hall : ∀ P kind,
              occurrences {| AlertPeer := P; MetricName := kind |} owed
              = if due now (metrics mc) P kind then occurrences P peers else 0).
    { intros P kind. unfold owed. by rewrite alerts_due_occurrences. }
    split; [done |].
    intros Hnd P kind Hin. rewrite Hall, (occurrences_NoDup P peers Hnd).
    by rewrite decide_True.
Qed.

(** The amended C3 at work: a sweep of [QmA] over [store_A] with an empty
    queue of capacity 256 enqueues the alert for [(QmA, ping)] once. *)
Lemma CheckMetrics_alerts_once_witness :
  store_wf samples.store_A
  ∧ ∃ emitted,
      buf (alertCh (CheckMetrics 200 (NewMetricsChecker samples.store_A) ["QmA"]).1)
      = [] ++ emitted
      ∧ occurrences {| AlertPeer := "QmA"; MetricName := "ping" |} emitted = 1.
Proof.
  assert (Hwf : store_wf samples.store_A)
    by apply store_wf_Add, store_wf_empty.
  split; [exact Hwf |].
  destruct (CheckMetrics_alerts_once 200 (NewMetricsChecker samples.store_A)
              ["QmA"] Hwf) as (emitted & Hbuf & _ & _ & Hok).
  exists emitted. split; [exact Hbuf |].
  destruct Hok as [_ Hone]; [by vm_compute |].
  rewrite (Hone ltac:(repeat constructor; set_solver) "QmA" "ping" ltac:(by left)).
  by vm_compute.
Defined.

(** [CheckMetrics] is the sweep with [alert] in the place of [send]. *)
Lemma check_peer_with_alert now mc (ms : list Metric) :
  check_peer_with alert now mc ms = check_peer now mc ms.
Proof.
  revert mc. induction ms as [| m ms IH]; intros mc; simpl; [done |].
  destruct (Valid m && Expired now m); [| apply IH].
  destruct (alert mc _ _) as [mc' [err |]]; [done | apply IH].
Qed.

Lemma CheckMetrics_with_alert now mc peers :
  CheckMetrics_with metrics alert now mc peers = CheckMetrics now mc peers.
Proof.
  revert mc. induction peers as [| p peers IH]; intros mc; simpl; [done |].
  rewrite check_peer_with_alert.
  destruct (check_peer now mc _) as [mc' [err |]]; [done | apply IH].
Qed.

(** The calls of [alert] the inner loop makes: the owed alerts up to and
    including the first one that does not fit. *)
Lemma check_peer_recorded now mc (calls : list Alert) (ms : list Metric) :
  let owed := alert_of <$> filter (λ m, is_due now m = true) ms in
  check_peer_with alert_recorded now (mc, calls) ms
  = (((enqueue_all mc owed).1,
      calls ++ take (S (cap (alertCh mc) - length (buf (alertCh mc)))) owed),
     (enqueue_all mc owed).2).
Proof.
  revert mc calls. induction ms as [| m ms IH]; intros mc calls.
  - cbn [check_peer_with filter list_filter fmap list_fmap].
    by rewrite enqueue_all_nil, take_nil, app_nil_r.
  - cbn [check_peer_with]. rewrite filter_cons.
    change (Valid m && Expired now m) with (is_due now m).
    destruct (decide (is_due now m = true)) as [Hdue | Hdue].
    + rewrite Hdue, fmap_cons, enqueue_all_cons.
      unfold alert_recorded. cbn [fst snd alert_of AlertPeer MetricName].
      destruct (decide (length (buf (alertCh mc)) < cap (alertCh mc)))
        as [Hroom | Hfull].
      * rewrite alert_room by done. cbn [fst snd]. rewrite IH.
        cbn [alertCh buf cap]. rewrite length_app. cbn [length].
        replace (S (cap (alertCh mc) - length (buf (alertCh mc))))
          with (S (S (cap (alertCh mc) - (length (buf (alertCh mc)) + 1))))
          by lia.
        rewrite <- app_assoc. done.
      * rewrite alert_full by lia. cbn [fst snd].
        replace (cap (alertCh mc) - length (buf (alertCh mc))) with 0 by lia.
        done.
    + apply not_true_is_false in Hdue. rewrite Hdue. apply IH.
Qed.

(** The recorded sweep is [CheckMetrics] with, beside it, the calls of
    [alert] it makes: the owed alerts up to and including the first one
    that does not fit. *)
Lemma CheckMetrics_with_recorded now mc (calls : list Alert) peers :
  CheckMetrics_with (λ st, metrics st.1) alert_recorded now (mc, calls) peers
  = (((CheckMetrics now mc peers).1,
      calls ++ take (S (cap (alertCh mc) - length (buf (alertCh mc))))
                    (alerts_due now (metrics mc) peers)),
     (CheckMetrics now mc peers).2).
Proof.
  rewrite CheckMetrics_enqueue. unfold alerts_due.
  remember (metrics mc) as mtrs eqn:Hm. revert mc calls Hm.
  induction peers as [| p peers IH]; intros mc calls Hm.
  - cbn [CheckMetrics_with mbind list_bind].
    by rewrite enqueue_all_nil, take_nil, app_nil_r.
  - cbn [CheckMetrics_with fst]. rewrite <- Hm, check_peer_recorded.
    rewrite bind_cons, enqueue_all_app.
    set (first := alert_of <$> filter (λ m, is_due now m = true)
                                  (PeerMetrics mtrs p)).
    set (room := cap (alertCh mc) - length (buf (alertCh mc))).
    destruct (enqueue_all mc first) as [mc1 [err |]] eqn:Hfirst; cbn [fst snd].
    + f_equal. f_equal. f_equal.
      assert (room < length first).
      { unfold enqueue_all in Hfirst. fold room in Hfirst.
        case_decide; [done | lia]. }
      rewrite take_app_le by lia. done.
    + assert (Hfit : length first ≤ room).
      { unfold enqueue_all in Hfirst. fold room in Hfirst.
        by case_decide. }
      assert (Hmc1 : mc1 = (enqueue_all mc first).1) by by rewrite Hfirst.
      rewrite (IH mc1) by by rewrite Hmc1.
      f_equal. f_equal. rewrite <- app_assoc. f_equal.
      rewrite (take_ge first) by lia.
      rewrite take_app_ge by lia. f_equal. f_equal.
      rewrite Hmc1. unfold enqueue_all. cbn [fst alertCh buf cap].
      rewrite length_app, take_ge by done. fold room. lia.
Qed.

(** C4: [CheckMetrics] returns [nil] or [ErrAlertChannelFull]; it returns
    the error exactly when the owed alerts outnumber the free slots of the
    queue, that is when the sweep reaches an owed alert whose enqueue finds
    the queue full; the queue is then full, it holds what was sent before
    that alert, as many alerts as there were free slots, and nothing later,
    and the outcome is the same whatever peers follow in the list; when no
    enqueue fails it returns [nil] with every owed alert enqueued.  The
    calls of [alert] the sweep makes, read off the same two loops run with
    a record of those calls, are the owed alerts up to and including the
    first that fails: after it the sweep makes no call. *)
Theorem CheckMetrics_error_iff_queue_full now mc peers :
  let owed := alerts_due now (metrics mc) peers in
  let room := cap (alertCh mc) - length (buf (alertCh mc)) in
  let res := CheckMetrics now mc peers in
  (res.2 = None ∨ res.2 = Some ErrAlertChannelFull)
  ∧ (res.2 = Some ErrAlertChannelFull ↔ room < length owed)
  ∧ (res.2 = Some ErrAlertChannelFull →
     cap (alertCh res.1) ≤ length (buf (alertCh res.1)))
  ∧ (res.2 = Some ErrAlertChannelFull ↔
     ∃ sent a rest,
       owed = sent ++ a :: rest
       ∧ length sent = room
       ∧ buf (alertCh res.1) = buf (alertCh mc) ++ sent
       ∧ cap (alertCh res.1) ≤ length (buf (alertCh res.1))
       ∧ alert res.1 (AlertPeer a) (MetricName a)
         = (res.1, Some ErrAlertChannelFull)
       ∧ (CheckMetrics_recorded now mc peers).1.2 = sent ++ [a])
  ∧ (res.2 = Some ErrAlertChannelFull →
     ∀ more, CheckMetrics now mc (peers ++ more) = res)
  ∧ (res.2 = None →
     buf (alertCh res.1) = buf (alertCh mc) ++ owed
     ∧ (CheckMetrics_recorded now mc peers).1.2 = owed)
  ∧ CheckMetrics_with metrics alert now mc peers = res
  ∧ (CheckMetrics_recorded now mc peers).1.1 = res.1
  ∧ (CheckMetrics_recorded now mc peers).2 = res.2
  ∧ metrics res.1 = metrics mc ∧ cap (alertCh res.1) = cap (alertCh mc).
Proof.
  intros owed room res.
  assert (Hres : res = enqueue_all mc owed) by apply CheckMetrics_enqueue.
  assert (Hbuf : buf (alertCh res.1) = buf (alertCh mc) ++ take room owed)
    by by rewrite Hres.
  assert (Herr : res.2 = if decide (length owed ≤ room)
                         then None else Some ErrAlertChannelFull)
    by by rewrite Hres.
  assert (Hcap : cap (alertCh res.1) = cap (alertCh mc)) by by rewrite Hres.
  assert (Hrec : CheckMetrics_recorded now mc peers
                 = ((res.1, take (S room) owed), res.2)).
  { unfold CheckMetrics_recorded. by rewrite CheckMetrics_with_recorded. }
  assert (Hfull : res.2 = Some ErrAlertChannelFull →
                  cap (alertCh res.1) ≤ length (buf (alertCh res.1))).
  { intros He. rewrite Herr in He. case_decide as Hfit; [done |].
    rewrite Hcap, Hbuf, length_app, length_take. lia. }
  split_and!.
  - rewrite Herr. case_decide; auto.
  - rewrite Herr. case_decide; split; done || lia.
  - done.
  - split.
    + intros He. pose proof (Hfull He) as Hnow.
      rewrite Herr in He. case_decide as Hfit; [done |].
      destruct (drop room owed) as [| a rest] eqn:Hdrop.
      { apply (f_equal length) in Hdrop. rewrite length_drop in Hdrop.
        simpl in Hdrop. lia. }
      assert (Howed : owed = take room owed ++ a :: rest)
        by by rewrite <- Hdrop, take_drop.
      exists (take room owed), a, rest. split_and!.
      * done.
      * rewrite length_take. lia.
      * done.
      * done.
      * by apply alert_full.
      * rewrite Hrec. cbn [fst snd]. rewrite Howed at 1.
        rewrite take_app_ge by (rewrite length_take; lia).
        rewrite length_take.
        replace (S room - room `min` length owed) with 1 by lia.
        done.
    + intros (sent & a & rest & Howed & Hlen & _).
      rewrite Herr. case_decide as Hfit; [| done].
      apply (f_equal length) in Howed.
      rewrite length_app in Howed. simpl in Howed. lia.
  - intros He more. rewrite CheckMetrics_enqueue. unfold alerts_due.
    rewrite bind_app. fold (alerts_due now (metrics mc) peers).
    fold (alerts_due now (metrics mc) more). fold owed.
    rewrite enqueue_all_app, <- Hres.
    destruct res as [mc' [err |]]; done.
  - intros Hok. rewrite Herr in Hok. case_decide as Hfit; [| done].
    split; [by rewrite Hbuf, take_ge |].
    rewrite Hrec. cbn [fst snd]. apply take_ge. lia.
  - apply CheckMetrics_with_alert.
  - by rewrite Hrec.
  - by rewrite Hrec.
  - by rewrite Hres.
  - done.
Qed.

(** C5: the queue of a new checker has capacity 256; a queue within its
    capacity stays within it through [alert], through a whole sweep and
    through a consumer's receive; and on a queue holding exactly its
    capacity [alert] returns [ErrAlertChannelFull] at once and leaves the
    checker, hence the queue contents, unchanged. *)
Theorem alert_queue_bounded mc :
  length (buf (alertCh mc)) ≤ cap (alertCh mc) →
  (∀ mtrs, alertCh (NewMetricsChecker mtrs) = {| buf := []; cap := 256 |})
  ∧ (∀ pid name,
       length (buf (alertCh (alert mc pid name).1))
       ≤ cap (alertCh (alert mc pid name).1)
       ∧ cap (alertCh (alert mc pid name).1) = cap (alertCh mc))
  ∧ (∀ now peers,
       length (buf (alertCh (CheckMetrics now mc peers).1))
       ≤ cap (alertCh (CheckMetrics now mc peers).1)
       ∧ cap (alertCh (CheckMetrics now mc peers).1) = cap (alertCh mc))
  ∧ (∀ a ch, try_recv (alertCh mc) = Some (a, ch) →
       length (buf ch) ≤ cap ch ∧ cap ch = cap (alertCh mc))
  ∧ (length (buf (alertCh mc)) = cap (alertCh mc) →
     ∀ pid name, alert mc pid name = (mc, Some ErrAlertChannelFull)).
Proof.
  intros Hbound. split_and!.
  - done.
  - intros pid name. split; [| apply alert_cap].
    destruct (decide (length (buf (alertCh mc)) < cap (alertCh mc))).
    + rewrite alert_room by done. simpl. rewrite length_app. simpl. lia.
    + by rewrite alert_full by lia.
  - intros now peers. rewrite CheckMetrics_enqueue. unfold enqueue_all. simpl.
    split; [| done]. rewrite length_app, length_take. lia.
  - intros a ch. unfold try_recv.
    destruct (buf (alertCh mc)) as [| a' rest] eqn:Hb; [done |].
    intros [= <- <-]. simpl in *. split; [lia | done].
  - intros Hfull pid name. apply alert_full. lia.
Qed.

(** C5 at work: the full queue of the default capacity refuses the next
    alert. *)
Lemma alert_queue_bounded_witness :
  length (buf (alertCh samples.full_checker)) = 256
  ∧ alert samples.full_checker "QmA" "ping"
    = (samples.full_checker, Some ErrAlertChannelFull).
Proof.
  assert (Hb : length (buf (alertCh samples.full_checker))
               ≤ cap (alertCh samples.full_checker)) by (vm_compute; lia).
  split; [by vm_compute |].
  destruct (alert_queue_bounded samples.full_checker Hb) as (_ & _ & _ & _ & Hfull).
  apply Hfull. by vm_compute.
Defined.

End sweep.

(* ===================================================================== *)
(** ** The monitor's operations *)
(* ===================================================================== *)
Section monitor_facts.

Context `{Codec}.

Implicit Types (mon : Monitor) (m : Metric).

(** C6: [PublishMetric] of a metric with [Discard()] true, which is one
    with an empty name or an empty peer, returns [nil] and makes no
    [Publish] call; otherwise, if encoding succeeds it makes exactly one
    [Publish] call, on [PubsubTopic] with the encoded bytes, and returns
    what that call returns; if encoding fails it returns the encoding
    error and makes no [Publish] call. *)
Theorem PublishMetric_discard_or_publish (published : option error) m :
  (Discard m = true ↔ Name m = EmptyString ∨ Peer m = EmptyString)
  ∧ (Discard m = true →
     PublishMetric published m = ([LogWarning], None)
     ∧ publishes (PublishMetric published m).1 = [])
  ∧ (Discard m = false → ∀ b, Encode m = inl b →
     publishes (PublishMetric published m).1 = [(PubsubTopic, b)]
     ∧ (PublishMetric published m).2 = published)
  ∧ (Discard m = false → ∀ err, Encode m = inr err →
     publishes (PublishMetric published m).1 = []
     ∧ (PublishMetric published m).2 = Some err).
Proof.
  split_and!.
  - unfold Discard. rewrite orb_true_iff, !bool_decide_eq_true. done.
  - intros Hd. unfold PublishMetric. by rewrite Hd.
  - intros Hd b Hb. unfold PublishMetric. rewrite Hd, Hb.
    by destruct published.
  - intros Hd err Herr. unfold PublishMetric. by rewrite Hd, Herr.
Qed.

(** C7: [LatestMetrics] is [Latest] of the store restricted to the metrics
    whose peer is in the list [getPeers] resolved, and is empty when the
    resolution returned an error. *)
Theorem LatestMetrics_filters_by_peerset (now : Z) (peers : list string)
    (err : option error) mon (name : string) :
  LatestMetrics now (peers, err) mon name
  = match err with
    | None => filter (λ m, Peer m ∈ peers) (Latest now (mon_metrics mon) name)
    | Some _ => []
    end
  ∧ (∀ m, m ∈ LatestMetrics now (peers, err) mon name
          ↔ err = None ∧ m ∈ Latest now (mon_metrics mon) name ∧ Peer m ∈ peers).
Proof.
  assert (Heq : LatestMetrics now (peers, err) mon name
                = match err with
                  | None => filter (λ m, Peer m ∈ peers)
                              (Latest now (mon_metrics mon) name)
                  | Some _ => []
                  end).
  { unfold LatestMetrics, getPeers. destruct err as [e |]; simpl; [done |].
    unfold PeersetFilter. apply list_filter_iff.
    intros m. apply elem_of_list_to_set. }
  split; [exact Heq |].
  intros m. rewrite Heq. destruct err as [e |].
  - split; [by intros ?%elem_of_nil | by intros [? _]].
  - rewrite list_elem_of_filter. split.
    + by intros [? ?].
    + by intros (_ & ? & ?).
Qed.

(** C9: a [Shutdown] that returns, returns [nil] and leaves the monitor
    shut down; on a monitor that is shut down [Shutdown] returns [nil],
    changes nothing and makes no teardown call (no close, no cancel, no
    wait), so every later call does the same. *)
Theorem Shutdown_idempotent mon mon1 (trace1 : list effect) (res1 : option error) :
  Shutdown mon = Returns mon1 trace1 res1 →
  res1 = None
  ∧ shutdown mon1 = true
  ∧ Shutdown mon1 = Returns mon1 [LogWarning] None
  ∧ teardown [LogWarning] = []
  ∧ (∀ mon2, shutdown mon2 = true →
       Shutdown mon2 = Returns mon2 [LogWarning] None).
Proof.
  assert (Hdown : ∀ mon2, shutdown mon2 = true →
            Shutdown mon2 = Returns mon2 [LogWarning] None).
  { intros mon2 Hs. unfold Shutdown. by rewrite Hs. }
  intros Hret.
  assert (Hs : res1 = None ∧ shutdown mon1 = true).
  { unfold Shutdown in Hret.
    destruct (shutdown mon) eqn:Hsd.
    - by simplify_eq.
    - destruct (chan_close _); [| done]. case_decide; [| done].
      by simplify_eq. }
  destruct Hs as [-> Hs]. split_and!; [done | done | by apply Hdown | done | done].
Qed.

(** C9 at work: two calls of [Shutdown] on a new monitor. *)
Lemma Shutdown_idempotent_witness :
  ∃ mon1,
    Shutdown New
    = Returns mon1 [LogInfo; CloseRpcReady; CtxCancel; WgWait] None
    ∧ Shutdown mon1 = Returns mon1 [LogWarning] None.
Proof.
  eexists. split; [reflexivity |].
  destruct (Shutdown_idempotent New _ _ _ eq_refl) as (_ & _ & Hagain & _).
  exact Hagain.
Defined.

End monitor_facts.

(* ===================================================================== *)
(** ** The monitor with its goroutines *)
(* ===================================================================== *)
(** Case analysis on a step that happened: every test the step makes is
    decided, leaving one goal per path through [step]. *)
Ltac step_paths Hstep :=
  simpl in Hstep;
  unfold SetClient, Shutdown, chan_send, chan_close, chan_recv in Hstep;
  simpl in Hstep;
  repeat (simplify_eq;
          match goal with
          | E : context [match ?x with _ => _ end] |- _ => destruct x eqn:?
          end);
  simplify_eq.

Section system_facts.

Variable WindowCap : nat.
Context `{Codec}.

Implicit Types (s : System) (e : event) (m : Metric).

Lemma CheckMetrics_metrics now (mc : MetricsChecker) peers :
  metrics (CheckMetrics now mc peers).1 = metrics mc.
Proof. by rewrite CheckMetrics_enqueue. Qed.

(** Only [LogMetric], called directly or by the receive loop, writes to
    the store. *)
Lemma step_store s e s' :
  step WindowCap s e = Some s' →
  mon_metrics (mon s') = mon_metrics (mon s)
  ∨ (∃ m, mon_metrics (mon s') = Add WindowCap (mon_metrics (mon s)) m
          ∧ (e = CallLogMetric m ∨ (e = RecvLogMetric ∧ recv s = RecvLog m))).
Proof.
  intros Hstep. destruct e; step_paths Hstep;
    try (by left);
    try (right; eexists; split; [reflexivity | by auto]).
  left. unfold mon_metrics. simpl. apply CheckMetrics_metrics.
Qed.

(** The metric the receive loop is about to log is what the payload it
    took from the subscription decodes to. *)
Lemma step_recv s e s' :
  step WindowCap s e = Some s' →
  match recv s' with
  | RecvMsg data => e = RecvNextMsg data ∨ recv s = RecvMsg data
  | RecvLog m =>
      (∃ data, recv s = RecvMsg data ∧ Decode data = inl m) ∨ recv s = RecvLog m
  | _ => True
  end.
Proof.
  intros Hstep. destruct e; step_paths Hstep; simpl;
    try done; try (case_match; by auto); try (by left).
  left. by eexists.
Qed.

(** A monitor that is shut down has its [rpcReady] channel closed. *)
Lemma step_shutdown_closed s e s' :
  step WindowCap s e = Some s' →
  (shutdown (mon s) = true → closed (rpcReady (mon s)) = true) →
  shutdown (mon s') = true → closed (rpcReady (mon s')) = true.
Proof.
  intros Hstep Hinv. destruct e; step_paths Hstep; simpl; try done.
  all: intros _; by apply Hinv.
Qed.

Lemma exec_shutdown_closed es s s' :
  exec WindowCap s es = Some s' →
  (shutdown (mon s) = true → closed (rpcReady (mon s)) = true) →
  shutdown (mon s') = true → closed (rpcReady (mon s')) = true.
Proof.
  revert s. induction es as [| e es IH]; intros s Hexec Hinv; simpl in Hexec.
  - by simplify_eq.
  - destruct (step WindowCap s e) as [s1 |] eqn:Hstep; [| done].
    apply (IH s1 Hexec). by apply (step_shutdown_closed s e).
Qed.

(** No step registers a goroutine with the wait group. *)
Lemma step_wg s e s' :
  step WindowCap s e = Some s' → wg (mon s') = wg (mon s).
Proof. intros Hstep. destruct e; step_paths Hstep; done. Qed.

Lemma exec_wg es s s' :
  exec WindowCap s es = Some s' → wg (mon s') = wg (mon s).
Proof.
  revert s. induction es as [| e es IH]; intros s Hexec; simpl in Hexec.
  - by simplify_eq.
  - destruct (step WindowCap s e) as [s1 |] eqn:Hstep; [| done].
    rewrite (IH s1 Hexec). by apply (step_wg s e).
Qed.

(** A call of [Shutdown] moves no goroutine. *)
Lemma step_Shutdown_tasks s s' :
  step WindowCap s CallShutdown = Some s' →
  run s' = run s ∧ recv s' = recv s ∧ watch s' = watch s.
Proof. intros Hstep. step_paths Hstep; done. Qed.

(** Every store the monitor can have files its histories under the peer
    and name of their entries. *)
Lemma exec_store_wf es s s' :
  exec WindowCap s es = Some s' →
  store_wf (mon_metrics (mon s)) → store_wf (mon_metrics (mon s')).
Proof.
  revert s. induction es as [| e es IH]; intros s Hexec Hwf; simpl in Hexec.
  - by simplify_eq.
  - destruct (step WindowCap s e) as [s1 |] eqn:Hstep; [| done].
    apply (IH s1 Hexec).
    destruct (step_store s e s1 Hstep) as [-> | (m & -> & _)]; [done |].
    by apply store_wf_Add.
Qed.

(** Along a schedule the store holds only what it held at the start and
    the valid metrics the schedule logged. *)
Lemma exec_store_valid es s s' :
  Forall (λ e, logs_valid e = true) es →
  exec WindowCap s es = Some s' →
  (∀ m, stored (mon_metrics (mon s)) m → Valid m = true) →
  (∀ m, recv s = RecvLog m → Valid m = true) →
  (∀ data m, recv s = RecvMsg data → Decode data = inl m → Valid m = true) →
  ∀ m, stored (mon_metrics (mon s')) m → Valid m = true.
Proof.
  intros Hes. revert s.
  induction Hes as [| e es He _ IH]; intros s Hexec Hst Hlog Hmsg; simpl in Hexec.
  - by simplify_eq.
  - destruct (step WindowCap s e) as [s1 |] eqn:Hstep; [| done].
    apply (IH s1 Hexec).
    + intros m Hm.
      destruct (step_store s e s1 Hstep) as [Heq | (m' & Heq & Hwho)].
      * rewrite Heq in Hm. by apply Hst.
      * rewrite Heq in Hm. apply stored_Add in Hm as [-> | Hm]; [| by apply Hst].
        destruct Hwho as [-> | [_ Hr]]; [done | by apply Hlog].
    + intros m Hr. pose proof (step_recv s e s1 Hstep) as Hpc.
      rewrite Hr in Hpc. destruct Hpc as [(data & Hd & Hdec) | Hsame].
      * by apply (Hmsg data).
      * by apply Hlog.
    + intros data m Hr Hdec. pose proof (step_recv s e s1 Hstep) as Hpc.
      rewrite Hr in Hpc. destruct Hpc as [-> | Hsame].
      * simpl in He. by rewrite Hdec in He.
      * by apply (Hmsg data).
Qed.

(** C1, as stated, fails: one call of [LogMetric] with a metric that has
    no name and is marked invalid leaves that metric in the store; and so
    does the receive loop when an inbound payload decodes to that metric. *)
Lemma invalid_metric_is_stored :
  Valid samples.unnamed_B = false
  ∧ Name samples.unnamed_B = EmptyString
  ∧ (∃ s, exec 1 (H := samples.codec_A) start
            [CallLogMetric samples.unnamed_B] = Some s
          ∧ stored (mon_metrics (mon s)) samples.unnamed_B)
  ∧ (∃ s, exec 1 (H := samples.codec_B) start
            [CallSetClient; RunRpcReady; RecvAtSelect; RecvNextMsg [];
             RecvDecode; RecvLogMetric] = Some s
          ∧ stored (mon_metrics (mon s)) samples.unnamed_B).
Proof.
  split; [done |]. split; [done |]. split.
  - eexists. split; [reflexivity |].
    apply (latest_stored _ "QmB" ""). by vm_compute.
  - eexists. split; [reflexivity |].
    apply (latest_stored _ "QmB" ""). by vm_compute.
Qed.

(** C1 (amended): the store is written only by [LogMetric], which checks
    nothing; so along every schedule of calls and goroutine steps from a
    new monitor in which each metric handed to [LogMetric] (by a direct
    call, or decoded from an inbound payload) is marked valid, every
    metric held in the store is marked valid.  [PublishMetric] never
    writes to the store. *)
Theorem store_valid_if_logged_valid es s :
  Forall (λ e, logs_valid e = true) es →
  exec WindowCap start es = Some s →
  ∀ m, stored (mon_metrics (mon s)) m → Valid m = true.
Proof.
  intros Hes Hexec. apply (exec_store_valid es start s Hes Hexec).
  - intros m (p & byKind & kind & window & Hp & _).
    unfold mon_metrics in Hp. simpl in Hp. unfold NewMetricStore in Hp.
    by rewrite lookup_empty in Hp.
  - done.
  - done.
Qed.

(** C10: in every state a new monitor can reach, once [Shutdown] returns
    [SetClient] panics, and it panics in every state where the monitor is
    shut down. *)
Theorem SetClient_after_Shutdown_panics es s :
  exec WindowCap start es = Some s →
  (∀ mon1 trace res, Shutdown (mon s) = Returns mon1 trace res →
     closed (rpcReady mon1) = true ∧ SetClient mon1 = Panics)
  ∧ (shutdown (mon s) = true → SetClient (mon s) = Panics).
Proof.
  intros Hexec.
  assert (Hinv : shutdown (mon s) = true → closed (rpcReady (mon s)) = true).
  { apply (exec_shutdown_closed es start s Hexec). done. }
  assert (Hpanic : ∀ mon1, closed (rpcReady mon1) = true → SetClient mon1 = Panics).
  { intros mon1 Hc. unfold SetClient, chan_send. simpl. by rewrite Hc. }
  split.
  - intros mon1 trace res Hret.
    assert (Hc : closed (rpcReady mon1) = true).
    { unfold Shutdown, chan_close in Hret.
      destruct (shutdown (mon s)) eqn:Hs.
      - simplify_eq. by apply Hinv.
      - destruct (closed (rpcReady (mon s))); [done |].
        case_decide; [| done]. by simplify_eq. }
    split; [done | by apply Hpanic].
  - intros Hs. by apply Hpanic, Hinv.
Qed.

End system_facts.

(** The amended C1 at work: logging the valid [ping_A] on a new monitor. *)
Lemma store_valid_if_logged_valid_witness :
  Forall (λ e, logs_valid (H := samples.codec_A) e = true)
         [CallLogMetric samples.ping_A]
  ∧ latest (mon_metrics (LogMetric 1 New samples.ping_A).1.1) "QmA" "ping"
    = Some samples.ping_A
  ∧ (∀ m, stored (mon_metrics (LogMetric 1 New samples.ping_A).1.1) m →
          Valid m = true).
Proof.
  assert (Hes : Forall (λ e, logs_valid (H := samples.codec_A) e = true)
                       [CallLogMetric samples.ping_A])
    by (repeat constructor).
  split; [exact Hes |]. split; [by vm_compute |].
  exact (store_valid_if_logged_valid 1 (H := samples.codec_A)
           [CallLogMetric samples.ping_A]
           (with_mon start (LogMetric 1 New samples.ping_A).1.1)
           Hes eq_refl).
Defined.

(** C10 at work: [SetClient] after [Shutdown] on a new monitor. *)
Lemma SetClient_after_Shutdown_panics_witness :
  ∃ mon1 trace, Shutdown New = Returns mon1 trace None ∧ SetClient mon1 = Panics.
Proof.
  destruct (SetClient_after_Shutdown_panics 1 (H := samples.codec_A) [] start eq_refl)
    as [Hafter _].
  eexists _, _. split; [reflexivity |].
  eapply Hafter. reflexivity.
Defined.

(* ===================================================================== *)
(** ** The watch loop and shutdown *)
(* ===================================================================== *)
Section watch_facts.

Implicit Types (mc : MetricsChecker) (ws : list wakeup).

(** A tick keeps the loop going, whatever [peersF] and [CheckMetrics]
    return. *)
Lemma Watch_body_tick mc called now :
  Watch_body mc (Tick called now)
  = InLoop (match called.2 with
            | Some _ => mc
            | None => (CheckMetrics now mc called.1).1
            end).
Proof. by destruct called as [peers [err |]]. Qed.

Lemma Watch_returns_iff_done mc ws :
  (∃ mc', Watch mc ws = Returned mc') ↔ Done ∈ ws.
Proof.
  revert mc. induction ws as [| w ws IH]; intros mc.
  - simpl. split; [by intros [? ?] | by intros ?%elem_of_nil].
  - destruct w as [called now |].
    + destruct called as [peers [err |]]; simpl; rewrite IH, elem_of_cons;
        (split; [by right | by intros [? | ?]]).
    + simpl. split; [by left | by exists mc].
Qed.

(** C8: run against any sequence of wake-ups, [Watch] has returned exactly
    when one of them was the cancellation case; a tick on which [peersF]
    fails leaves the loop running with the checker untouched, and a tick
    on which [CheckMetrics] runs leaves the loop running whatever it
    returns, the queue-full error included.  In the monitor, the watch
    goroutine passes to its returned state by no step other than the
    cancellation case of its [select], which needs the context
    cancelled, and that case can be taken whenever the loop is at its
    [select] with the context cancelled. *)
Theorem Watch_returns_iff_cancelled mc ws :
  ((∃ mc', Watch mc ws = Returned mc') ↔ Done ∈ ws)
  ∧ (Done ∉ ws → ∃ mc', Watch mc ws = InLoop mc')
  ∧ (∀ peers err now,
       Watch_body mc (Tick (peers, Some err) now) = InLoop mc)
  ∧ (∀ peers now,
       Watch_body mc (Tick (peers, None) now)
       = InLoop (CheckMetrics now mc peers).1)
  ∧ (∀ (WindowCap : nat) (codec : Codec) (s s' : System) (e : event),
       step WindowCap s e = Some s' →
       watch s ≠ WatchReturned →
       (watch s' = WatchReturned
        ↔ e = WatchCtxDone ∧ cancelled (mon s) = true))
  ∧ (∀ (WindowCap : nat) (codec : Codec) (s : System),
       watch s = WatchSelect → cancelled (mon s) = true →
       step WindowCap s WatchCtxDone = Some (with_watch s WatchReturned)).
Proof.
  split_and!; [| | | | | by intros WindowCap codec s Hw Hc; simpl; rewrite Hw, Hc].
  - apply Watch_returns_iff_done.
  - intros Hnot. destruct (Watch mc ws) as [mc' | mc'] eqn:Hw; [by exists mc' |].
    exfalso. apply Hnot, (Watch_returns_iff_done mc). by exists mc'.
  - done.
  - done.
  - intros WindowCap codec s s' e Hstep Hrun.
    destruct e; step_paths Hstep; simpl in *;
      (split; [intros ? | intros [? ?]]); try done; try congruence.
Qed.

(** C2, on the code: no step of the monitor changes the wait-group
    counter, which stays zero, so [wg.Wait()] never waits and a call of
    [Shutdown] returns leaving every goroutine where it stands.  In the
    schedule below [Shutdown] returns [nil] while the receive loop holds a
    decoded metric and the watch loop holds a peer list; after the return
    the receive loop stores the metric and the watch loop enqueues an
    alert. *)
Theorem Shutdown_returns_while_tasks_run :
  (∀ (WindowCap : nat) (codec : Codec) es s,
     exec WindowCap start es = Some s → wg (mon s) = 0)
  ∧ (∀ (WindowCap : nat) (codec : Codec) s s',
       step WindowCap s CallShutdown = Some s' →
       run s' = run s ∧ recv s' = recv s ∧ watch s' = watch s)
  ∧ ∃ s1 s2 s3 s4,
    exec 1 (H := samples.codec_A) start
      [CallSetClient; RunRpcReady; RecvAtSelect; RecvNextMsg []; RecvDecode;
       WatchTick; WatchGetPeers (["QmA"], None)] = Some s1
    ∧ wg (mon s1) = 0
    ∧ step 1 (H := samples.codec_A) s1 CallShutdown = Some s2
    ∧ Shutdown (mon s1)
      = Returns (mon s2) [LogInfo; CloseRpcReady; CtxCancel; WgWait] None
    ∧ recv s2 = RecvLog samples.ping_A
    ∧ watch s2 = WatchCheck ["QmA"]
    ∧ latest (mon_metrics (mon s2)) "QmA" "ping" = None
    ∧ step 1 (H := samples.codec_A) s2 RecvLogMetric = Some s3
    ∧ latest (mon_metrics (mon s3)) "QmA" "ping" = Some samples.ping_A
    ∧ buf (alertCh (checker (mon s3))) = []
    ∧ step 1 (H := samples.codec_A) s3 (WatchCheckMetrics 200) = Some s4
    ∧ buf (alertCh (checker (mon s4))) = [alert_of samples.ping_A].
Proof.
  split.
  { intros WindowCap codec es s Hexec. by rewrite (exec_wg _ _ _ _ Hexec). }
  split.
  { intros WindowCap codec s s'. apply step_Shutdown_tasks. }
  eexists _, _, _, _.
  split; [vm_compute; reflexivity |]. split; [reflexivity |].
  split; [vm_compute; reflexivity |]. split; [reflexivity |].
  split; [reflexivity |]. split; [reflexivity |].
  split; [by vm_compute |].
  split; [vm_compute; reflexivity |].
  split; [by vm_compute |].
  split; [reflexivity |].
  split; [vm_compute; reflexivity |].
  by vm_compute.
Qed.

End watch_facts.

(* ===================================================================== *)
(** ** More on the checker: what [Watch] leaves in the queue *)
(* ===================================================================== *)
Section watch_queue.

Implicit Types (mc : MetricsChecker) (ws : list wakeup).

(** After a batch that did not fit, the queue is full. *)
Lemma enqueue_all_failed_full mc alerts mc' err :
  enqueue_all mc alerts = (mc', Some err) →
  cap (alertCh mc') ≤ length (buf (alertCh mc')).
Proof.
  unfold enqueue_all. intros Heq. case_decide as Hfit; [done |].
  injection Heq as <- _. simpl. rewrite length_app, length_take. lia.
Qed.

(** Nothing fits in a full queue. *)
Lemma enqueue_all_full mc alerts :
  cap (alertCh mc) ≤ length (buf (alertCh mc)) →
  (enqueue_all mc alerts).1 = mc.
Proof.
  intros Hfull. unfold enqueue_all. simpl.
  replace (cap (alertCh mc) - length (buf (alertCh mc))) with 0 by lia.
  rewrite take_0, app_nil_r. by destruct mc as [[b c] mtrs].
Qed.

(** Two batches one after the other leave the queue a single batch of
    both would, whether or not the first one fitted. *)
Lemma enqueue_all_twice mc alerts1 alerts2 :
  (enqueue_all (enqueue_all mc alerts1).1 alerts2).1
  = (enqueue_all mc (alerts1 ++ alerts2)).1.
Proof.
  rewrite enqueue_all_app.
  destruct (enqueue_all mc alerts1) as [mc' [err |]] eqn:Hfirst; [| done].
  simpl. apply enqueue_all_full. by eapply enqueue_all_failed_full.
Qed.

(** X1: whatever wake-ups [Watch] sees, the queue it leaves is the queue it
    found followed by the alerts its sweeps owed (those of the ticks on
    which [peersF] succeeded, up to the first cancellation), in order, cut
    off at the capacity: what does not fit is dropped without a trace, and
    [Watch] never touches the store nor the capacity. *)
Theorem Watch_enqueues_owed mc ws :
  buf (alertCh (watch_checker (Watch mc ws)))
  = buf (alertCh mc)
    ++ take (cap (alertCh mc) - length (buf (alertCh mc)))
            (owed_by (metrics mc) ws)
  ∧ cap (alertCh (watch_checker (Watch mc ws))) = cap (alertCh mc)
  ∧ metrics (watch_checker (Watch mc ws)) = metrics mc.
Proof.
  enough (Hbatch : watch_checker (Watch mc ws)
                   = (enqueue_all mc (owed_by (metrics mc) ws)).1)
    by by rewrite Hbatch.
  revert mc. induction ws as [| w ws IH]; intros mc.
  - cbn [Watch watch_checker owed_by]. by rewrite enqueue_all_nil.
  - destruct w as [[peers [err |]] now |];
      cbn [Watch Watch_body watch_checker owed_by fst].
    + apply IH.
    + rewrite IH, CheckMetrics_enqueue, enqueue_all_metrics.
      apply enqueue_all_twice.
    + by rewrite enqueue_all_nil.
Qed.

(** X2: a full queue refuses an alert; once a consumer has received from
    [Alerts()], which hands over the oldest alert, the same alert is
    accepted and queued behind the remaining ones. *)
Theorem alert_accepted_after_receive mc pid name :
  0 < cap (util.Alerts mc) →
  length (buf (util.Alerts mc)) = cap (util.Alerts mc) →
  alert mc pid name = (mc, Some ErrAlertChannelFull)
  ∧ ∃ oldest ch,
      try_recv (util.Alerts mc) = Some (oldest, ch)
      ∧ buf (util.Alerts mc) = oldest :: buf ch
      ∧ alert {| alertCh := ch; metrics := metrics mc |} pid name
        = ({| alertCh := {| buf := buf ch
                                   ++ [{| AlertPeer := pid; MetricName := name |}];
                            cap := cap (util.Alerts mc) |};
              metrics := metrics mc |}, None).
Proof.
  unfold util.Alerts. intros Hcap Hfull. split; [apply alert_full; lia |].
  unfold try_recv.
  destruct (buf (alertCh mc)) as [| oldest rest] eqn:Hbuf; simpl in Hfull; [lia |].
  eexists oldest, _. split; [reflexivity |]. split; [done |].
  rewrite alert_room; [done |]. simpl. lia.
Qed.

(** X2 at work on the full queue of the default capacity. *)
Lemma alert_accepted_after_receive_witness :
  ∃ oldest ch,
    try_recv (util.Alerts samples.full_checker) = Some (oldest, ch)
    ∧ (alert {| alertCh := ch; metrics := samples.store_A |} "QmA" "ping").2
      = None.
Proof.
  assert (Hcap : 0 < cap (util.Alerts samples.full_checker))
    by (vm_compute; lia).
  destruct (alert_accepted_after_receive samples.full_checker "QmA" "ping"
              Hcap eq_refl) as (_ & oldest & ch & Hrecv & _ & Hsend).
  exists oldest, ch. split; [exact Hrecv |].
  change samples.store_A with (metrics samples.full_checker).
  by rewrite Hsend.
Defined.

End watch_queue.

(* ===================================================================== *)
(** ** More on the monitor: its life cycle along every schedule *)
(* ===================================================================== *)
Section lifecycle_facts.

Variable WindowCap : nat.
Context `{Codec}.

Implicit Types (s : System) (e : event) (es : list event).

(** Closing [rpcReady], cancelling the context and setting the shutdown
    flag happen together, in [Shutdown] only. *)
Lemma step_lifecycle s e s' :
  step WindowCap s e = Some s' →
  closed (rpcReady (mon s)) = shutdown (mon s)
  ∧ cancelled (mon s) = shutdown (mon s) →
  closed (rpcReady (mon s')) = shutdown (mon s')
  ∧ cancelled (mon s') = shutdown (mon s').
Proof.
  intros Hstep [Hc Hx]. destruct e; step_paths Hstep; simpl in *;
    try done; try (split; congruence).
Qed.

Lemma exec_lifecycle es s s' :
  exec WindowCap s es = Some s' →
  closed (rpcReady (mon s)) = shutdown (mon s)
  ∧ cancelled (mon s) = shutdown (mon s) →
  closed (rpcReady (mon s')) = shutdown (mon s')
  ∧ cancelled (mon s') = shutdown (mon s').
Proof.
  revert s. induction es as [| e es IH]; intros s Hexec Hinv; simpl in Hexec.
  - by simplify_eq.
  - destruct (step WindowCap s e) as [s1 |] eqn:Hstep; [| done].
    apply (IH s1 Hexec). by apply (step_lifecycle s e).
Qed.


(** The alert queue keeps its capacity and stays within it. *)
Lemma step_queue s e s' :
  step WindowCap s e = Some s' →
  cap (alertCh (checker (mon s'))) = cap (alertCh (checker (mon s)))
  ∧ (length (buf (alertCh (checker (mon s)))) ≤ cap (alertCh (checker (mon s))) →
     length (buf (alertCh (checker (mon s')))) ≤ cap (alertCh (checker (mon s')))).
Proof.
  intros Hstep. destruct e; step_paths Hstep; simpl; try done.
  - match goal with
    | E : try_recv _ = Some _ |- _ => unfold try_recv in E
    end.
    destruct (buf (alertCh (checker (mon s)))) as [| ? ?] eqn:Hb; [done |].
    simplify_eq. simpl. split; [done | lia].
  - rewrite CheckMetrics_enqueue. unfold enqueue_all. simpl.
    split; [done | rewrite length_app, length_take; lia].
Qed.

(** X4: in every state a new monitor can reach, the alert queue has
    capacity 256 and holds at most 256 alerts, whatever the sweeps of the
    watch loop and the consumers of [Alerts()] do. *)
Theorem monitor_queue_bounded es s :
  exec WindowCap start es = Some s →
  cap (Alerts (mon s)) = 256 ∧ length (buf (Alerts (mon s))) ≤ 256.
Proof.
  unfold Alerts, util.Alerts.
  enough (Hgen : ∀ s0,
            exec WindowCap s0 es = Some s →
            cap (alertCh (checker (mon s0))) = 256 →
            length (buf (alertCh (checker (mon s0)))) ≤ 256 →
            cap (alertCh (checker (mon s))) = 256
            ∧ length (buf (alertCh (checker (mon s)))) ≤ 256).
  { intros Hexec. apply (Hgen start Hexec); [done | simpl; lia]. }
  induction es as [| e es IH]; intros s0 Hexec Hcap Hlen; simpl in Hexec.
  - by simplify_eq.
  - destruct (step WindowCap s0 e) as [s1 |] eqn:Hstep; [| done].
    destruct (step_queue s0 e s1 Hstep) as [Hc Hl].
    apply (IH s1 Hexec); [congruence |].
    rewrite <- Hcap, <- Hc. apply Hl. lia.
Qed.

(** Until [SetClient] or [Shutdown] is called nothing moves but the
    store. *)
Lemma step_unarmed s e s' :
  step WindowCap s e = Some s' →
  e ≠ CallSetClient → e ≠ CallShutdown →
  unarmed s →
  unarmed s'
  ∧ ((∃ m, e = CallLogMetric m
           ∧ mon_metrics (mon s') = Add WindowCap (mon_metrics (mon s)) m)
     ∨ mon_metrics (mon s') = mon_metrics (mon s)).
Proof.
  intros Hstep Hset Hshut (Hrun & Hrecv & Hwatch & Hrpc & Hcan & Hdown & Hbuf).
  destruct e; try done; simpl in Hstep.
  - simplify_eq. split; [done |]. left. by exists m.
  - simplify_eq. split; [done |]. by right.
  - unfold try_recv in Hstep. by rewrite Hbuf in Hstep.
  - by rewrite Hrun, Hrpc in Hstep.
  - by rewrite Hrun, Hcan in Hstep.
  - by rewrite Hrecv in Hstep.
  - by rewrite Hrecv in Hstep.
  - by rewrite Hrecv in Hstep.
  - by rewrite Hrecv in Hstep.
  - by rewrite Hrecv in Hstep.
  - by rewrite Hwatch in Hstep.
  - by rewrite Hwatch in Hstep.
  - by rewrite Hwatch in Hstep.
  - by rewrite Hwatch in Hstep.
Qed.

Lemma exec_unarmed es s s' :
  exec WindowCap s es = Some s' →
  CallSetClient ∉ es → CallShutdown ∉ es →
  unarmed s →
  unarmed s'
  ∧ ∀ m, stored (mon_metrics (mon s')) m →
         stored (mon_metrics (mon s)) m ∨ CallLogMetric m ∈ es.
Proof.
  revert s. induction es as [| e es IH]; intros s Hexec Hset Hshut Hidle;
    simpl in Hexec.
  - simplify_eq. split; [done | by left].
  - destruct (step WindowCap s e) as [s1 |] eqn:Hstep; [| done].
    apply not_elem_of_cons in Hset as [Hset1 Hset], Hshut as [Hshut1 Hshut].
    destruct (step_unarmed s e s1 Hstep) as [Hidle1 Hstore]; [done .. |].
    destruct (IH s1 Hexec Hset Hshut Hidle1) as [Hidle' Hfrom].
    split; [done |]. intros m Hm.
    destruct (Hfrom m Hm) as [Hm1 | Hin]; [| right; by right].
    destruct Hstore as [(m1 & -> & Heq) | Heq]; rewrite Heq in Hm1.
    + apply stored_Add in Hm1 as [-> | Hm1]; [right; by left | by left].
    + by left.
Qed.

(** X5: until [SetClient] or [Shutdown] is called, [run] waits, neither
    loop is started and no alert is raised; the store holds only what
    direct calls of [LogMetric] put there. *)
Theorem nothing_runs_before_SetClient es s :
  exec WindowCap start es = Some s →
  CallSetClient ∉ es → CallShutdown ∉ es →
  run s = RunSelect ∧ recv s = RecvNotStarted ∧ watch s = WatchNotStarted
  ∧ buf (Alerts (mon s)) = []
  ∧ ∀ m, stored (mon_metrics (mon s)) m → CallLogMetric m ∈ es.
Proof.
  intros Hexec Hset Hshut.
  destruct (exec_unarmed es start s Hexec Hset Hshut)
    as [(Hrun & Hrecv & Hwatch & _ & _ & _ & Hbuf) Hfrom].
  { by repeat split. }
  split_and!; [done .. |].
  intros m Hm. destruct (Hfrom m Hm) as [(p & byKind & k & w & Hp & _) | Hin];
    [| done].
  unfold mon_metrics in Hp. simpl in Hp. unfold NewMetricStore in Hp.
  by rewrite lookup_empty in Hp.
Qed.

(** [run] leaves its [select] once, and only its [rpcReady] case starts the
    loops. *)
Lemma step_run s e s' :
  step WindowCap s e = Some s' →
  (if decide (e = RunRpcReady) then 1 else 0)
  + (if decide (e = RunCtxDone) then 1 else 0)
  + run_pending (run s') = run_pending (run s)
  ∧ (if decide (e = RunRpcReady)
     then recv s' = RecvSelect ∧ watch s' = WatchSelect
     else (recv s' = RecvNotStarted ↔ recv s = RecvNotStarted)
          ∧ (watch s' = WatchNotStarted ↔ watch s = WatchNotStarted)).
Proof.
  intros Hstep. destruct e; step_paths Hstep; simpl;
    repeat case_decide; try done;
    match goal with
    | E : _ = _ |- _ => rewrite E; simpl; done
    end.
Qed.

Lemma exec_run es s s' :
  exec WindowCap s es = Some s' →
  occurrences RunRpcReady es + occurrences RunCtxDone es + run_pending (run s')
  = run_pending (run s)
  ∧ (RunRpcReady ∈ es →
     recv s' ≠ RecvNotStarted ∧ watch s' ≠ WatchNotStarted)
  ∧ (RunRpcReady ∉ es →
     (recv s' = RecvNotStarted ↔ recv s = RecvNotStarted)
     ∧ (watch s' = WatchNotStarted ↔ watch s = WatchNotStarted)).
Proof.
  revert s. induction es as [| e es IH]; intros s Hexec; simpl in Hexec.
  - simplify_eq. rewrite !occurrences_nil.
    split_and!; [done | by intros ?%elem_of_nil | done].
  - destruct (step WindowCap s e) as [s1 |] eqn:Hstep; [| done].
    destruct (step_run s e s1 Hstep) as [Hcount Hpcs].
    destruct (IH s1 Hexec) as (IHcount & IHin & IHout).
    rewrite !occurrences_cons.
    split_and!.
    + lia.
    + intros Hin. destruct (decide (e = RunRpcReady)) as [-> | Hne].
      * destruct Hpcs as [Hr Hw].
        destruct (decide (RunRpcReady ∈ es)) as [Hes | Hes]; [by apply IHin |].
        destruct (IHout Hes) as [Hr' Hw'].
        rewrite Hr', Hw', Hr, Hw. done.
      * apply IHin. apply elem_of_cons in Hin as [? | ?]; [congruence | done].
    + intros Hout. apply not_elem_of_cons in Hout as [Hne Hes].
      rewrite decide_False in Hpcs by congruence.
      destruct Hpcs as [Hr Hw], (IHout Hes) as [Hr' Hw'].
      by rewrite Hr', Hw', Hr, Hw.
Qed.

(** X6: over the life of a monitor [run] leaves its [select] at most once,
    so the receive loop and the watch loop are launched at most once, and
    they are launched exactly when [run] took its [rpcReady] case. *)
Theorem loops_started_at_most_once es s :
  exec WindowCap start es = Some s →
  occurrences RunRpcReady es + occurrences RunCtxDone es ≤ 1
  ∧ (recv s ≠ RecvNotStarted ↔ RunRpcReady ∈ es)
  ∧ (watch s ≠ WatchNotStarted ↔ RunRpcReady ∈ es).
Proof.
  intros Hexec. destruct (exec_run es start s Hexec) as (Hcount & Hin & Hout).
  simpl in Hcount. split; [lia |].
  destruct (decide (RunRpcReady ∈ es)) as [Hes | Hes].
  - destruct (Hin Hes). done.
  - destruct (Hout Hes) as [Hr Hw]. simpl in Hr, Hw.
    split; (split; [intros Hne; exfalso; apply Hne; by (apply Hr || apply Hw)
                   | done]).
Qed.

Lemma exec_app es1 es2 s :
  exec WindowCap s (es1 ++ es2)
  = match exec WindowCap s es1 with
    | Some s1 => exec WindowCap s1 es2
    | None => None
    end.
Proof.
  revert s. induction es1 as [| e es1 IH]; intros s; simpl; [done |].
  destruct (step WindowCap s e); [apply IH | done].
Qed.

(** A returning [SetClient] uses up a free slot of [rpcReady]; only [run]
    frees one, once. *)
Lemma step_SetClient_slots s e s' :
  step WindowCap s e = Some s' →
  (if decide (e = CallSetClient) then 1 else 0)
  + (rpcReadyCap - queued (rpcReady (mon s'))) + run_pending (run s')
  ≤ (rpcReadyCap - queued (rpcReady (mon s))) + run_pending (run s).
Proof.
  intros Hstep. destruct e; step_paths Hstep; simpl;
    repeat case_decide; try done; unfold rpcReadyCap in *;
    repeat match goal with
           | E : queued _ = _ |- _ => rewrite E
           | E : run _ = _ |- _ => rewrite E
           end; simpl; lia.
Qed.

Lemma exec_SetClient_slots es s s' :
  exec WindowCap s es = Some s' →
  occurrences CallSetClient es
  ≤ (rpcReadyCap - queued (rpcReady (mon s))) + run_pending (run s).
Proof.
  revert s. induction es as [| e es IH]; intros s Hexec; simpl in Hexec.
  - rewrite occurrences_nil. lia.
  - destruct (step WindowCap s e) as [s1 |] eqn:Hstep; [| done].
    pose proof (step_SetClient_slots s e s1 Hstep).
    pose proof (IH s1 Hexec). rewrite occurrences_cons. lia.
Qed.

(** X7: over the life of a monitor [SetClient] returns at most twice (the
    channel buffers one value and [run] takes one); after two returns a
    further call blocks or panics. *)
Theorem SetClient_returns_at_most_twice es s :
  exec WindowCap start es = Some s →
  occurrences CallSetClient es ≤ 2
  ∧ (occurrences CallSetClient es = 2 →
     SetClient (mon s) = Blocks ∨ SetClient (mon s) = Panics).
Proof.
  intros Hexec.
  pose proof (exec_SetClient_slots es start s Hexec) as Hle.
  simpl in Hle. split; [done |]. intros Htwice.
  destruct (SetClient (mon s)) as [mon1 trace res | |] eqn:Hcall; [| by left | by right].
  exfalso.
  assert (Hmore : exec WindowCap start (es ++ [CallSetClient])
                  = Some (with_mon s mon1)).
  { rewrite exec_app, Hexec. simpl. by rewrite Hcall. }
  apply exec_SetClient_slots in Hmore.
  rewrite occurrences_app, occurrences_cons, occurrences_nil in Hmore.
  rewrite decide_True in Hmore by done. simpl in Hmore. lia.
Qed.

(** X8: when [Shutdown] returns on a monitor whose [run] is still at its
    [select] (no [SetClient] was taken up), both cases of that [select]
    are ready, as [rpcReady] is closed and the context cancelled: [run]
    may return at once, or take the [rpcReady] case and launch the receive
    loop and the watch loop on the shut-down monitor. *)
Theorem Shutdown_lets_run_start_loops es s s1 :
  exec WindowCap start es = Some s →
  run s = RunSelect →
  step WindowCap s CallShutdown = Some s1 →
  shutdown (mon s1) = true
  ∧ (∃ s2, step WindowCap s1 RunCtxDone = Some s2
           ∧ recv s2 = recv s ∧ watch s2 = watch s)
  ∧ (∃ s2, step WindowCap s1 RunRpcReady = Some s2
           ∧ recv s2 = RecvSelect ∧ watch s2 = WatchSelect
           ∧ shutdown (mon s2) = true).
Proof.
  intros Hexec Hrun Hstep.
  assert (Hnext : exec WindowCap start (es ++ [CallShutdown]) = Some s1).
  { rewrite exec_app, Hexec. cbn [exec]. by rewrite Hstep. }
  destruct (exec_lifecycle _ start s1 Hnext) as [Hc Hx]; [done |].
  destruct (step_Shutdown_tasks WindowCap s s1 Hstep) as (Hr & Hv & Hw).
  assert (Hs : shutdown (mon s1) = true).
  { clear -Hstep. step_paths Hstep; done. }
  rewrite Hs in Hc, Hx. rewrite Hrun in Hr.
  split; [done |]. split.
  - simpl. rewrite Hr, Hx. eexists. split; [reflexivity |]. by simpl.
  - simpl. rewrite Hr. unfold chan_recv. rewrite Hc.
    destruct (queued (rpcReady (mon s1))); eexists; (split; [reflexivity |]);
      by simpl.
Qed.

Lemma step_cancelled s e s' :
  step WindowCap s e = Some s' →
  cancelled (mon s) = true → cancelled (mon s') = true.
Proof. intros Hstep Hc. destruct e; step_paths Hstep; simpl; done. Qed.

(** With the context cancelled the receive loop starts no new iteration. *)
Lemma step_in_flight s e s' :
  step WindowCap s e = Some s' →
  cancelled (mon s) = true →
  (if decide (e = RecvLogMetric) then 1 else 0) + in_flight (recv s')
  ≤ in_flight (recv s).
Proof.
  intros Hstep Hc. destruct e; step_paths Hstep; simpl;
    repeat case_decide; try done;
    repeat match goal with
           | E : recv _ = _ |- _ => rewrite E
           end; simpl; try lia; congruence.
Qed.

Lemma exec_in_flight es s s' :
  exec WindowCap s es = Some s' →
  cancelled (mon s) = true →
  occurrences RecvLogMetric es ≤ in_flight (recv s).
Proof.
  revert s. induction es as [| e es IH]; intros s Hexec Hc; simpl in Hexec.
  - rewrite occurrences_nil. lia.
  - destruct (step WindowCap s e) as [s1 |] eqn:Hstep; [| done].
    pose proof (step_in_flight s e s1 Hstep Hc).
    pose proof (IH s1 Hexec (step_cancelled s e s1 Hstep Hc)).
    rewrite occurrences_cons. lia.
Qed.

(** X9: once [Shutdown] has returned, the receive loop calls [LogMetric]
    at most once more, for the iteration it had under way, and not at all
    if it stood at its [select], was not started or had returned. *)
Theorem receive_loop_after_Shutdown es1 es2 s s' :
  exec WindowCap start es1 = Some s →
  shutdown (mon s) = true →
  exec WindowCap s es2 = Some s' →
  occurrences RecvLogMetric es2 ≤ in_flight (recv s)
  ∧ in_flight (recv s) ≤ 1.
Proof.
  intros Hexec Hs Hmore.
  destruct (exec_lifecycle es1 start s Hexec) as [_ Hx]; [done |].
  rewrite Hs in Hx. split; [by apply (exec_in_flight es2 s s') |].
  destruct (recv s); simpl; lia.
Qed.

End lifecycle_facts.


(** X4 at work: after a sweep that raises an alert. *)
Lemma monitor_queue_bounded_witness :
  ∃ s,
    exec 1 (H := samples.codec_A) start
      [CallLogMetric samples.ping_A; CallSetClient; RunRpcReady; WatchTick;
       WatchGetPeers (["QmA"], None); WatchCheckMetrics 200] = Some s
    ∧ buf (Alerts (mon s)) = [alert_of samples.ping_A]
    ∧ length (buf (Alerts (mon s))) ≤ 256.
Proof.
  eexists. split; [vm_compute; reflexivity |]. split; [by vm_compute |].
  eapply (monitor_queue_bounded 1 (H := samples.codec_A)
            [CallLogMetric samples.ping_A; CallSetClient; RunRpcReady; WatchTick;
             WatchGetPeers (["QmA"], None); WatchCheckMetrics 200]).
  vm_compute. reflexivity.
Defined.

(* ===================================================================== *)
(** ** More on the monitor: metrics in, metrics and alerts out *)
(* ===================================================================== *)
Section flow_facts.

Variable WindowCap : nat.
Context `{Codec}.

Implicit Types (s : System) (mon : Monitor) (m x : Metric) (mtrs : MetricStore).

(** [Latest] lists the unexpired latest metric of each peer. *)
Lemma Latest_elem now mtrs kind x :
  x ∈ Latest now mtrs kind
  ↔ ∃ p, latest mtrs p kind = Some x ∧ Expired now x = false.
Proof.
  unfold Latest, latest. rewrite list_elem_of_omap. split.
  - intros ([p byKind] & Hin & Hx). apply elem_of_map_to_list in Hin.
    exists p. rewrite Hin. simpl in *.
    destruct (byKind !! kind) as [window |]; simpl in *; [| done].
    destruct (last window) as [y |]; simpl in *; [| done].
    destruct (Expired now y) eqn:Hy; by simplify_eq.
  - intros (p & Hl & Hx).
    destruct (mtrs !! p) as [byKind |] eqn:Hp; simpl in Hl; [| done].
    exists (p, byKind). split; [by apply elem_of_map_to_list |].
    simpl. destruct (byKind !! kind) as [window |]; simpl in *; [| done].
    rewrite Hl. simpl. by rewrite Hx.
Qed.

(** [Add] leaves the latest metric of every other key alone. *)
Lemma latest_Add_ne mtrs m p kind :
  ¬ (p = Peer m ∧ kind = Name m) →
  latest (Add WindowCap mtrs m) p kind = latest mtrs p kind.
Proof.
  intros Hne. unfold latest, Add.
  destruct (decide (p = Peer m)) as [-> | Hp].
  - rewrite lookup_insert_eq. simpl.
    rewrite lookup_insert_ne by (intros ?; apply Hne; done).
    destruct (mtrs !! Peer m) as [byKind |]; simpl; [done |].
    by rewrite lookup_empty.
  - by rewrite lookup_insert_ne.
Qed.

Lemma due_Add now mtrs m p kind :
  0 < WindowCap →
  due now (Add WindowCap mtrs m) p kind
  = if decide (p = Peer m ∧ kind = Name m) then is_due now m
    else due now mtrs p kind.
Proof.
  intros Hcap. unfold due. case_decide as Hkey.
  - destruct Hkey as [-> ->]. by rewrite latest_Add.
  - by rewrite latest_Add_ne.
Qed.

Lemma LatestMetrics_elem now peers mon kind x :
  x ∈ LatestMetrics now (peers, None) mon kind
  ↔ x ∈ Latest now (mon_metrics mon) kind ∧ Peer x ∈ peers.
Proof.
  unfold LatestMetrics, getPeers, PeersetFilter. simpl.
  rewrite list_elem_of_filter, elem_of_list_to_set. tauto.
Qed.

(** X10: a payload that does not decode, like an error of [Next], ends the
    iteration of the receive loop with the monitor untouched, and the next
    payload that decodes is logged: the store gains its metric. *)
Theorem receive_loop_survives_bad_message s (bad good : bytes) err m :
  recv s = RecvNext →
  cancelled (mon s) = false →
  Decode bad = inr err →
  Decode good = inl m →
  exec WindowCap s [RecvNextErr] = Some (with_recv s RecvSelect)
  ∧ exec WindowCap s [RecvNextMsg bad; RecvDecode] = Some (with_recv s RecvSelect)
  ∧ ∃ s', exec WindowCap s
            [RecvNextMsg bad; RecvDecode; RecvAtSelect;
             RecvNextMsg good; RecvDecode; RecvLogMetric] = Some s'
          ∧ mon_metrics (mon s') = Add WindowCap (mon_metrics (mon s)) m
          ∧ alertCh (checker (mon s')) = alertCh (checker (mon s))
          ∧ recv s' = RecvSelect.
Proof.
  intros Hpc Hrun Hbad Hgood. split_and!.
  - simpl. by rewrite Hpc.
  - simpl. rewrite Hpc. simpl. by rewrite Hbad.
  - simpl. rewrite Hpc. simpl. rewrite Hbad. simpl. rewrite Hrun. simpl.
    rewrite Hgood. simpl. eexists. split; [reflexivity |]. done.
Qed.

(** X11: what [PublishMetric] sends for a metric it does not discard is
    one payload on [PubsubTopic]; a receive loop that takes that payload
    from the subscription and decodes it back stores the metric, which
    becomes the latest of its peer and name. *)
Theorem published_metric_reaches_store s m (b : bytes) :
  0 < WindowCap →
  Discard m = false →
  Encode m = inl b →
  Decode b = inl m →
  recv s = RecvNext →
  PublishMetric None m = ([LogDebug; Publish PubsubTopic b], None)
  ∧ ∃ s', exec WindowCap s [RecvNextMsg b; RecvDecode; RecvLogMetric] = Some s'
          ∧ latest (mon_metrics (mon s')) (Peer m) (Name m) = Some m
          ∧ ∀ p kind, ¬ (p = Peer m ∧ kind = Name m) →
              latest (mon_metrics (mon s')) p kind
              = latest (mon_metrics (mon s)) p kind.
Proof.
  intros Hcap Hkeep Henc Hdec Hpc. split.
  - unfold PublishMetric. by rewrite Hkeep, Henc.
  - simpl. rewrite Hpc. simpl. rewrite Hdec. simpl.
    eexists. split; [reflexivity |]. unfold mon_metrics. simpl. split.
    + by apply latest_Add.
    + intros p kind Hne. by apply latest_Add_ne.
Qed.

(** X12: after [LogMetric] of [m], [LatestMetrics] of a kind returns [m]
    if that is its name, it has not expired and its peer is in the
    resolved peer set, and besides it exactly what it returned before for
    the other peers; what was there for [m]'s peer and name is
    superseded. *)
Theorem LogMetric_then_LatestMetrics now (peers : list string) mon m kind x :
  0 < WindowCap →
  store_wf (mon_metrics mon) →
  x ∈ LatestMetrics now (peers, None) (LogMetric WindowCap mon m).1.1 kind
  ↔ (kind = Name m ∧ x = m ∧ Expired now m = false ∧ Peer m ∈ peers)
    ∨ (x ∈ LatestMetrics now (peers, None) mon kind
       ∧ ¬ (Peer x = Peer m ∧ kind = Name m)).
Proof.
  intros Hcap Hwf. rewrite !LatestMetrics_elem, !Latest_elem.
  change (mon_metrics (LogMetric WindowCap mon m).1.1)
    with (Add WindowCap (mon_metrics mon) m).
  split.
  - intros [(p & Hl & Hx) Hin].
    destruct (decide (p = Peer m ∧ kind = Name m)) as [[-> ->] | Hne].
    + rewrite latest_Add in Hl by done. simplify_eq. by left.
    + rewrite latest_Add_ne in Hl by done.
      destruct (latest_wf _ _ _ _ Hwf Hl) as [<- _].
      right. split; [| done]. split; [by exists (Peer x) | done].
  - intros [(-> & -> & Hx & Hin) | [[(p & Hl & Hx) Hin] Hne]].
    + split; [| done]. exists (Peer m). split; [by apply latest_Add | done].
    + destruct (latest_wf _ _ _ _ Hwf Hl) as [<- _].
      split; [| done]. exists (Peer x). split; [| done].
      by rewrite latest_Add_ne.
Qed.

(** X13: the sweep that follows [LogMetric] of [m], over a duplicate-free
    peer list and with room in the queue, raises the alert of [m]'s peer
    and name exactly when [m] itself is valid and expired and its peer is
    listed, whatever was stored under that key before, and raises the
    alerts of the other keys as it would have without [m]. *)
Theorem LogMetric_then_CheckMetrics now (peers : list string) mon m :
  0 < WindowCap →
  store_wf (mon_metrics mon) →
  NoDup peers →
  (CheckMetrics now (checker (LogMetric WindowCap mon m).1.1) peers).2 = None →
  ∃ emitted,
    buf (alertCh (CheckMetrics now (checker (LogMetric WindowCap mon m).1.1) peers).1)
    = buf (Alerts mon) ++ emitted
    ∧ occurrences (alert_of m) emitted
      = (if decide (Peer m ∈ peers) then if is_due now m then 1 else 0 else 0)
    ∧ ∀ P kind, ¬ (P = Peer m ∧ kind = Name m) →
        occurrences {| AlertPeer := P; MetricName := kind |} emitted
        = if decide (P ∈ peers)
          then if due now (mon_metrics mon) P kind then 1 else 0
          else 0.
Proof.
  intros Hcap Hwf Hnd Hok.
  rewrite CheckMetrics_enqueue in Hok |- *. unfold enqueue_all in Hok |- *.
  simpl in Hok |- *. case_decide as Hfit; [| done].
  rewrite take_ge by done.
  fold (mon_metrics mon).
  exists (alerts_due now (Add WindowCap (mon_metrics mon) m) peers).
  assert (Hwf' : store_wf (Add WindowCap (mon_metrics mon) m))
    by by apply store_wf_Add.
  split; [done |]. split.
  - rewrite alerts_due_occurrences by done. simpl.
    rewrite due_Add, decide_True by done.
    rewrite (occurrences_NoDup _ peers Hnd).
    by destruct (is_due now m); case_decide.
  - intros P kind Hne. rewrite alerts_due_occurrences by done. simpl.
    rewrite due_Add, decide_False by done.
    rewrite (occurrences_NoDup _ peers Hnd).
    by destruct (due now (mon_metrics mon) P kind); case_decide.
Qed.

(** An owed alert names a listed peer and a due key. *)
Lemma alerts_due_elem now mtrs (peers : list string) (a : Alert) :
  store_wf mtrs →
  a ∈ alerts_due now mtrs peers →
  AlertPeer a ∈ peers ∧ due now mtrs (AlertPeer a) (MetricName a) = true.
Proof.
  intros Hwf. unfold alerts_due. rewrite list_elem_of_bind.
  intros (p & Ha & Hp). apply peer_alerts_elem in Ha as [-> Hdue]; done.
Qed.

(** Alerts enter the queue through the sweep of the watch loop only. *)
Lemma step_alerts s e s' (a : Alert) :
  step WindowCap s e = Some s' →
  a ∈ buf (Alerts (mon s')) →
  a ∈ buf (Alerts (mon s))
  ∨ ∃ now peers, e = WatchCheckMetrics now ∧ watch s = WatchCheck peers
                 ∧ a ∈ alerts_due now (mon_metrics (mon s)) peers.
Proof.
  unfold Alerts, util.Alerts.
  intros Hstep. destruct e; step_paths Hstep; simpl; auto.
  - match goal with
    | E : try_recv _ = Some _ |- _ => unfold try_recv in E
    end.
    destruct (buf (alertCh (checker (mon s)))) as [| ? ?] eqn:Hb; [done |].
    simplify_eq. simpl. intros Ha. left. by right.
  - rewrite CheckMetrics_enqueue. unfold enqueue_all. simpl.
    rewrite elem_of_app. intros [Ha | Ha]; [by left | right].
    eexists _, _. split; [done |]. split; [done |].
    by eapply subseteq_take.
Qed.

Lemma latest_Add_is_Some mtrs m p kind :
  0 < WindowCap →
  is_Some (latest mtrs p kind) →
  is_Some (latest (Add WindowCap mtrs m) p kind).
Proof.
  intros Hcap Hsome.
  destruct (decide (p = Peer m ∧ kind = Name m)) as [[-> ->] | Hne].
  - by rewrite latest_Add.
  - by rewrite latest_Add_ne.
Qed.

Lemma exec_alerts_stored es s s' :
  0 < WindowCap →
  exec WindowCap s es = Some s' →
  store_wf (mon_metrics (mon s)) →
  (∀ a, a ∈ buf (Alerts (mon s)) →
        is_Some (latest (mon_metrics (mon s)) (AlertPeer a) (MetricName a))) →
  ∀ a, a ∈ buf (Alerts (mon s')) →
       is_Some (latest (mon_metrics (mon s')) (AlertPeer a) (MetricName a)).
Proof.
  intros Hcap. revert s.
  induction es as [| e es IH]; intros s Hexec Hwf Hinv; simpl in Hexec.
  - by simplify_eq.
  - destruct (step WindowCap s e) as [s1 |] eqn:Hstep; [| done].
    apply (IH s1 Hexec).
    + apply (exec_store_wf WindowCap [e] s s1); [| done].
      cbn [exec]. by rewrite Hstep.
    + intros a Ha.
      assert (Hbefore : is_Some (latest (mon_metrics (mon s))
                                   (AlertPeer a) (MetricName a))).
      { destruct (step_alerts s e s1 a Hstep Ha)
          as [Hold | (now & peers & _ & _ & Hdue)]; [by apply Hinv |].
        apply alerts_due_elem in Hdue as [_ Hdue]; [| done].
        unfold due in Hdue. by destruct (latest _ _ _). }
      destruct (step_store WindowCap s e s1 Hstep) as [-> | (m & -> & _)];
        [done | by apply latest_Add_is_Some].
Qed.

(** X14: with a window of at least one entry, every alert in the queue of
    a state a new monitor can reach names a peer and a metric name under
    which the store holds a metric: the monitor raises no alert about a
    key it has not been given a metric for. *)
Theorem alerts_name_stored_keys es s (a : Alert) :
  0 < WindowCap →
  exec WindowCap start es = Some s →
  a ∈ buf (Alerts (mon s)) →
  ∃ m, latest (mon_metrics (mon s)) (AlertPeer a) (MetricName a) = Some m
       ∧ Peer m = AlertPeer a ∧ Name m = MetricName a.
Proof.
  intros Hcap Hexec Ha.
  assert (Hwf : store_wf (mon_metrics (mon s))).
  { apply (exec_store_wf WindowCap es start s Hexec). apply store_wf_empty. }
  destruct (exec_alerts_stored es start s Hcap Hexec) with (a := a)
    as [m Hm]; [apply store_wf_empty | by intros ? ?%elem_of_nil | done |].
  exists m. split; [done |]. by apply (latest_wf _ _ _ _ Hwf).
Qed.

End flow_facts.

(* ===================================================================== *)
(** ** The properties above at work on sample schedules *)
(* ===================================================================== *)

Ltac not_in_schedule :=
  repeat (apply not_elem_of_cons; split; [discriminate |]);
  apply not_elem_of_nil.

(** X5 at work: calls of [LogMetric] and [PublishMetric] on a new
    monitor. *)
Lemma nothing_runs_before_SetClient_witness :
  ∃ s,
    exec 1 (H := samples.codec_A) start
      [CallLogMetric samples.ping_A; CallPublishMetric None samples.ping_A]
    = Some s
    ∧ recv s = RecvNotStarted ∧ watch s = WatchNotStarted.
Proof.
  eexists. split; [reflexivity |].
  destruct (nothing_runs_before_SetClient 1 (H := samples.codec_A)
              [CallLogMetric samples.ping_A; CallPublishMetric None samples.ping_A]
              _ eq_refl ltac:(not_in_schedule) ltac:(not_in_schedule))
    as (_ & Hrecv & Hwatch & _).
  split; [exact Hrecv | exact Hwatch].
Defined.

(** X6 at work: [SetClient], then [run] takes its [rpcReady] case. *)
Lemma loops_started_at_most_once_witness :
  ∃ s,
    exec 1 (H := samples.codec_A) start [CallSetClient; RunRpcReady] = Some s
    ∧ recv s ≠ RecvNotStarted.
Proof.
  eexists. split; [reflexivity |].
  destruct (loops_started_at_most_once 1 (H := samples.codec_A)
              [CallSetClient; RunRpcReady] _ eq_refl) as (_ & Hrecv & _).
  apply Hrecv. right. by left.
Defined.

(** X7 at work: two calls of [SetClient] return, the third blocks. *)
Lemma SetClient_returns_at_most_twice_witness :
  ∃ s,
    exec 1 (H := samples.codec_A) start
      [CallSetClient; RunRpcReady; CallSetClient] = Some s
    ∧ SetClient (mon s) = Blocks.
Proof.
  eexists. split; [reflexivity |].
  destruct (SetClient_returns_at_most_twice 1 (H := samples.codec_A)
              [CallSetClient; RunRpcReady; CallSetClient] _ eq_refl)
    as [_ Hthird].
  destruct (Hthird eq_refl) as [Hb | Hp]; [exact Hb | discriminate Hp].
Defined.

(** X8 at work: [Shutdown] on a new monitor, then [run] launches the
    loops. *)
Lemma Shutdown_lets_run_start_loops_witness :
  ∃ s1 s2,
    step 1 (H := samples.codec_A) start CallShutdown = Some s1
    ∧ step 1 (H := samples.codec_A) s1 RunRpcReady = Some s2
    ∧ recv s2 = RecvSelect ∧ watch s2 = WatchSelect.
Proof.
  eexists. 
  destruct (Shutdown_lets_run_start_loops 1 (H := samples.codec_A)
              [] start _ eq_refl eq_refl eq_refl)
    as (_ & _ & s2 & Hstep & Hrecv & Hwatch & _).
  exists s2. split; [reflexivity |]. split; [exact Hstep |].
  split; [exact Hrecv | exact Hwatch].
Defined.

(** X9 at work: [Shutdown] returns while the receive loop holds a decoded
    metric; the loop logs it and returns at its [select]. *)
Lemma receive_loop_after_Shutdown_witness :
  ∃ s s',
    exec 1 (H := samples.codec_A) start
      [CallSetClient; RunRpcReady; RecvAtSelect; RecvNextMsg []; RecvDecode;
       CallShutdown] = Some s
    ∧ exec 1 (H := samples.codec_A) s [RecvLogMetric; RecvAtSelect] = Some s'
    ∧ recv s' = RecvReturned
    ∧ occurrences RecvLogMetric [RecvLogMetric; RecvAtSelect] ≤ 1.
Proof.
  eexists _, _. split; [reflexivity |]. split; [reflexivity |].
  split; [reflexivity |].
  destruct (receive_loop_after_Shutdown 1 (H := samples.codec_A)
              [CallSetClient; RunRpcReady; RecvAtSelect; RecvNextMsg [];
               RecvDecode; CallShutdown]
              [RecvLogMetric; RecvAtSelect] _ _ eq_refl eq_refl eq_refl)
    as [Hle Hone].
  exact (Nat.le_trans _ _ _ Hle Hone).
Defined.

(** X10 at work: an empty payload, which [codec_C] rejects, then a payload
    it decodes to [ping_A]. *)
Lemma receive_loop_survives_bad_message_witness :
  exec 1 (H := samples.codec_C) start
    [CallSetClient; RunRpcReady; RecvAtSelect] = Some samples.listening
  ∧ ∃ s',
      exec 1 (H := samples.codec_C) samples.listening
        [RecvNextMsg []; RecvDecode; RecvAtSelect;
         RecvNextMsg [Byte.x01]; RecvDecode; RecvLogMetric] = Some s'
      ∧ mon_metrics (mon s')
        = Add 1 (mon_metrics (mon samples.listening)) samples.ping_A.
Proof.
  split; [reflexivity |].
  destruct (receive_loop_survives_bad_message 1 (H := samples.codec_C)
              samples.listening [] [Byte.x01] (ExternalError "malformed")
              samples.ping_A eq_refl eq_refl eq_refl eq_refl)
    as (_ & _ & s' & Hexec & Hstore & _).
  exists s'. split; [exact Hexec | exact Hstore].
Defined.

(** X11 at work: [ping_A] through [codec_A], whose payload for it decodes
    back to it. *)
Lemma published_metric_reaches_store_witness :
  exec 1 (H := samples.codec_A) start
    [CallSetClient; RunRpcReady; RecvAtSelect] = Some samples.listening
  ∧ ∃ s',
      exec 1 (H := samples.codec_A) samples.listening
        [RecvNextMsg []; RecvDecode; RecvLogMetric] = Some s'
      ∧ latest (mon_metrics (mon s')) "QmA" "ping" = Some samples.ping_A.
Proof.
  split; [reflexivity |].
  destruct (published_metric_reaches_store 1 (H := samples.codec_A)
              samples.listening samples.ping_A []
              ltac:(lia) eq_refl eq_refl eq_refl eq_refl)
    as (_ & s' & Hexec & Hlatest & _).
  exists s'. split; [exact Hexec | exact Hlatest].
Defined.

(** X12 at work: [ping_A], logged on a new monitor and asked for at time
    50, before it expires. *)
Lemma LogMetric_then_LatestMetrics_witness :
  store_wf (mon_metrics New)
  ∧ samples.ping_A
    ∈ LatestMetrics 50 (["QmA"], None) (LogMetric 1 New samples.ping_A).1.1 "ping".
Proof.
  assert (Hwf : store_wf (mon_metrics New)) by apply store_wf_empty.
  split; [exact Hwf |].
  apply (LogMetric_then_LatestMetrics 1 50 ["QmA"] New samples.ping_A "ping"
           samples.ping_A ltac:(lia) Hwf).
  left. split_and!; [done | done | done | by left].
Defined.

(** X13 at work: [ping_A], logged on a new monitor and swept at time 200,
    after it expired. *)
Lemma LogMetric_then_CheckMetrics_witness :
  ∃ emitted,
    buf (alertCh (CheckMetrics 200 (checker (LogMetric 1 New samples.ping_A).1.1)
                    ["QmA"]).1) = [] ++ emitted
    ∧ occurrences (alert_of samples.ping_A) emitted = 1.
Proof.
  destruct (LogMetric_then_CheckMetrics 1 200 ["QmA"] New samples.ping_A
              ltac:(lia) store_wf_empty
              ltac:(repeat constructor; apply not_elem_of_nil)
              ltac:(by vm_compute))
    as (emitted & Hbuf & Hone & _).
  exists emitted. split; [exact Hbuf |].
  rewrite Hone. by vm_compute.
Defined.

(** X14 at work: the alert raised for [ping_A] after it was logged. *)
Lemma alerts_name_stored_keys_witness :
  ∃ s,
    exec 1 (H := samples.codec_A) start
      [CallLogMetric samples.ping_A; CallSetClient; RunRpcReady; WatchTick;
       WatchGetPeers (["QmA"], None); WatchCheckMetrics 200] = Some s
    ∧ ∃ m, latest (mon_metrics (mon s)) "QmA" "ping" = Some m
           ∧ Peer m = "QmA" ∧ Name m = "ping".
Proof.
  eexists. split; [vm_compute; reflexivity |].
  eapply (alerts_name_stored_keys 1 (H := samples.codec_A)
            [CallLogMetric samples.ping_A; CallSetClient; RunRpcReady; WatchTick;
             WatchGetPeers (["QmA"], None); WatchCheckMetrics 200]
            _ (alert_of samples.ping_A) ltac:(lia)).
  - vm_compute. reflexivity.
  - vm_compute. by left.
Defined.
